(** * kubectl-ips: pod IP extraction, ordering, formatting and rendering

    A shallow embedding of [pkg/cmd] (table.go, the field formatters, the
    printers and the [ips] command) together with the properties the
    specification states about them.

    Go strings are [string]; [int32] values are [Z] with the wrap-around
    written out; the [map[string]bool] of the extractor is a [gmap string bool];
    the text handed to the output stream and the cluster queries are
    threaded explicitly, and a run-time panic is an outcome of its own
    ([ErrPanic]). What the program calls in libraries, the stream's answer
    to a write included, is a parameter ([Library]); [sort.Slice] is
    taken by its documented behaviour ([SortsSlice]), and Go's own algorithm
    is modelled beside it ([go_sort_Slice]). *)

From Stdlib Require Import ZArith Ascii String List Sorting.Sorted Lia.
From stdpp Require Import base tactics option list strings gmap pretty sorting.

Open Scope string_scope.
Open Scope list_scope.

(** ** Go string comparison

    Go compares strings bytewise; [String.ltb] compares the characters'
    codes from the left, which is the same order. *)

Definition go_lt (a b : string) : bool := String.ltb a b.
Definition go_neq (a b : string) : bool := negb (String.eqb a b).

(** ** The pod record (k8s.io/api/core/v1), restricted to the fields read *)

Record ContainerStateWaiting := { Waiting_Reason : string }.

Record ContainerStateTerminated := {
  ExitCode : Z;            (* int32 *)
  Signal : Z;              (* int32 *)
  Terminated_Reason : string
}.

Record ContainerState := {
  Waiting : option ContainerStateWaiting;
  Running : option unit;
  Terminated : option ContainerStateTerminated
}.

Record ContainerStatus := {
  State : ContainerState;
  Ready : bool;
  RestartCount : Z         (* int32 *)
}.

(** [corev1.PodIP], the element type of [Status.PodIPs]. *)
Record PodIPEntry := { IP : string }.

Record PodStatus := {
  Phase : string;
  Reason : string;
  PodIP : string;
  PodIPs : list PodIPEntry;
  InitContainerStatuses : list ContainerStatus;
  ContainerStatuses : list ContainerStatus
}.

Record PodSpec := { NodeName : string }.

(** [CreationTimestamp] is a [metav1.Time] value ([None] is the zero time);
    [DeletionTimestamp] is a [*metav1.Time] ([None] is nil). Times are
    nanoseconds. *)
Record Pod := {
  Name : string;
  Namespace : string;
  CreationTimestamp : option Z;
  DeletionTimestamp : option Z;
  Labels : gmap string string;
  Spec : PodSpec;
  Status : PodStatus
}.

Record PodList := { Items : list Pod }.

(** ** table.go *)

(** [pod] is a pointer into [pods.Items]; the program only reads through it,
    so the pair carries the pod it points to. *)
Record podIPWithPod := { pod : Pod; ip : string }.

(** [uniqueIPs[k]]: a missing key reads as [false]. *)
Definition seen (uniqueIPs : gmap string bool) (k : string) : bool :=
  default false (uniqueIPs !! k).

(** The inner loop of [extractPodIPsWithPods] over [pod.Status.PodIPs]. *)
Fixpoint extractSecondary (p : Pod) (ips : list PodIPEntry)
    (st : list podIPWithPod * gmap string bool)
    : list podIPWithPod * gmap string bool :=
  match ips with
  | [] => st
  | e :: rest =>
      let '(podIPs, uniqueIPs) := st in
      if go_neq (IP e) "" && negb (seen uniqueIPs (IP e))
      then extractSecondary p rest
             (podIPs ++ [{| pod := p; ip := IP e |}], <[IP e := true]> uniqueIPs)
      else extractSecondary p rest st
  end.

(** One iteration of the outer loop. *)
Definition extractPod (p : Pod) (st : list podIPWithPod * gmap string bool)
    : list podIPWithPod * gmap string bool :=
  let '(podIPs, uniqueIPs) := st in
  let st1 :=
    if go_neq (PodIP (Status p)) ""
    then (podIPs ++ [{| pod := p; ip := PodIP (Status p) |}],
          <[PodIP (Status p) := true]> uniqueIPs)
    else st in
  extractSecondary p (PodIPs (Status p)) st1.

Fixpoint extractLoop (items : list Pod)
    (st : list podIPWithPod * gmap string bool)
    : list podIPWithPod * gmap string bool :=
  match items with
  | [] => st
  | p :: rest => extractLoop rest (extractPod p st)
  end.

Definition extractPodIPsWithPods (pods : PodList) : list podIPWithPod :=
  fst (extractLoop (Items pods) ([], ∅)).

(** The comparison closure handed to [sort.Slice]. *)
Definition less (a b : podIPWithPod) : bool :=
  if go_neq (Namespace (pod a)) (Namespace (pod b))
  then go_lt (Namespace (pod a)) (Namespace (pod b))
  else if go_neq (Name (pod a)) (Name (pod b))
  then go_lt (Name (pod a)) (Name (pod b))
  else go_lt (ip a) (ip b).

(** ** The rendered table (metav1.Table) and errors *)

Record TableColumnDefinition := {
  col_Name : string;
  col_Type : string;
  Priority : Z
}.

(** The cells are [[]any]; every cell the program stores is a string.
    [Object] is the row's back-reference to its pod. *)
Record TableRow := { Cells : list string; Object : Pod }.

Record Table := {
  ColumnDefinitions : list TableColumnDefinition;
  Rows : list TableRow
}.

(** A [runtime.Object] as the printers receive it. *)
Inductive RuntimeObject :=
| ObjTable (t : Table)
| ObjPodList (l : PodList).

Inductive error :=
| ErrUnsupportedFormat
| ErrExpectedTable
| ErrExpectedPodList
| ErrLibrary (msg : string)
| ErrWrap (context : string) (e : error)
| ErrPanic (msg : string).

(** The [Error()] method; [ErrWrap] is [fmt.Errorf("context: %w", err)].
    [ErrPanic] is the value of a run-time panic (a [runtime.Error]): no call
    returns it, [panic] below is the one place that makes it. *)
Fixpoint Error (e : error) : string :=
  match e with
  | ErrUnsupportedFormat => "unsupported output format"
  | ErrExpectedTable => "expected metav1.Table"
  | ErrExpectedPodList => "expected PodList"
  | ErrLibrary msg => msg
  | ErrWrap context e => context +:+ ": " +:+ Error e
  | ErrPanic msg => msg
  end.

Inductive Result (A : Type) :=
| Ok (a : A)
| Err (e : error).
Arguments Ok {A} a.
Arguments Err {A} e.

(** ** Library collaborators

    What the program calls but does not define: Go's [sort.Slice], the
    clock, apimachinery's [duration.HumanDuration], the iteration order of a
    [range] over a map, the structured encoders, cli-runtime's table printer,
    [labels.Parse], [fmt]'s [%q], and the [Write] of the stream the caller
    hands in as [o.Out].

    [range_map] is the order of one iteration; Go fixes none, and two
    iterations over one map may differ. [labels_Parse s] is the parsed
    selector, given by its [String()], or the parse error. [Writer_Write written data] is the error, if any, with
    which the stream answers a write of [data] after [written]. *)

Record Library := {
  sort_Slice :
    (podIPWithPod → podIPWithPod → bool) → list podIPWithPod → list podIPWithPod;
  time_Since : Z → Z;
  duration_HumanDuration : Z → string;
  range_map : gmap string string → list (string * string);
  json_MarshalIndent : RuntimeObject → Result string;
  yaml_Marshal : RuntimeObject → Result string;
  TablePrinter_PrintObj : bool → RuntimeObject → Result string;
  labels_Parse : string → Result string;
  fmt_q : string → string;
  Writer_Write : string → string → option error
}.

(** The ordering [sort.Slice] leaves behind: no element is [less] than one
    that stands before it. *)
Definition notAfter (lt : podIPWithPod → podIPWithPod → bool)
    (a b : podIPWithPod) : Prop := lt b a = false.

(** [sort.Slice]'s documented behaviour, for the comparison the program
    hands it: it rearranges the slice so that it is ordered by [less]; "the
    sort is not guaranteed to be stable: equal elements may be reversed from
    their original order". *)
Definition SortsSlice (L : Library) : Prop :=
  ∀ l : list podIPWithPod,
    sort_Slice L less l ≡ₚ l ∧ Sorted (notAfter less) (sort_Slice L less l).

(** Insertion sort, a sort that behaves as documented: each element moves
    left while it is [lt] than its left neighbour. [sorted_rev] is the prefix
    already ordered, last element first. *)
Fixpoint siftLeft {A} (lt : A → A → bool) (x : A) (sorted_rev : list A) : list A :=
  match sorted_rev with
  | [] => [x]
  | y :: r => if lt x y then y :: siftLeft lt x r else x :: y :: r
  end.

Definition insertionSort {A} (lt : A → A → bool) (data : list A) : list A :=
  reverse (foldl (λ acc x, siftLeft lt x acc) [] data).

(** ** Go's [sort.Slice]

    The algorithm behind [sort.Slice] in Go 1.19 and later (package [sort],
    zsortfunc.go): pattern-defeating quicksort over the slice's [Less] and
    [Swap]. The slice is a list; an index outside it, which the algorithm
    never forms, reads as "not less" and swaps nothing. Loops carry the
    number of iterations they can take at most. *)

Section GoSort.
Context {A : Type} (lt : A → A → bool).
#[local] Open Scope nat_scope.

Definition Less (data : list A) (i j : nat) : bool :=
  match data !! i, data !! j with
  | Some x, Some y => lt x y
  | _, _ => false
  end.

Definition Swap (data : list A) (i j : nat) : list A :=
  match data !! i, data !! j with
  | Some x, Some y => <[j := x]> (<[i := y]> data)
  | _, _ => data
  end.

(** [for j := i; j > a && data.Less(j, j-1); j-- { data.Swap(j, j-1) }] *)
Fixpoint insertionStep (data : list A) (a j : nat) : list A :=
  match j with
  | 0 => data
  | S j' =>
      if (a <? j) && Less data j j' then insertionStep (Swap data j j') a j'
      else data
  end.

Definition insertionSort_func (data : list A) (a b : nat) : list A :=
  foldl (λ data i, insertionStep data a i) data (seq (a + 1) (b - (a + 1))).

Fixpoint siftDown_func (fuel : nat) (data : list A) (root hi first : nat) : list A :=
  match fuel with
  | 0 => data
  | S fuel =>
      let child := 2 * root + 1 in
      if hi <=? child then data
      else
        let child :=
          if (child + 1 <? hi) && Less data (first + child) (first + child + 1)
          then child + 1 else child in
        if negb (Less data (first + root) (first + child)) then data
        else siftDown_func fuel (Swap data (first + root) (first + child))
               child hi first
  end.

Definition heapSort_func (data : list A) (a b : nat) : list A :=
  let first := a in
  let lo := 0 in
  let hi := b - a in
  let data :=
    foldl (λ data i, siftDown_func hi data i hi first) data
          (reverse (seq 0 ((hi - 1) / 2 + 1))) in
  foldl (λ data i, siftDown_func hi (Swap data first (first + i)) lo i first)
        data (reverse (seq 0 hi)).

(** [for i <= j && data.Less(i, a) { i++ }] and
    [for i <= j && !data.Less(j, a) { j-- }] *)
Fixpoint skipLess (fuel : nat) (data : list A) (a i j : nat) : nat :=
  match fuel with
  | 0 => i
  | S fuel =>
      if (i <=? j) && Less data i a then skipLess fuel data a (S i) j else i
  end.

Fixpoint skipNotLess (fuel : nat) (data : list A) (a i j : nat) : nat :=
  match fuel with
  | 0 => j
  | S fuel =>
      if (i <=? j) && negb (Less data j a) then skipNotLess fuel data a i (j - 1)
      else j
  end.

Fixpoint partitionLoop (fuel : nat) (data : list A) (a i j : nat)
    : list A * nat :=
  match fuel with
  | 0 => (data, j)
  | S fuel =>
      let i := skipLess (S j - i) data a i j in
      let j := skipNotLess (S j - i) data a i j in
      if j <? i then (data, j)
      else partitionLoop fuel (Swap data i j) a (S i) (j - 1)
  end.

Definition partition_func (data : list A) (a b pivot : nat)
    : list A * nat * bool :=
  let data := Swap data a pivot in
  let i := a + 1 in
  let j := b - 1 in
  let i := skipLess (S j - i) data a i j in
  let j := skipNotLess (S j - i) data a i j in
  if j <? i then (Swap data j a, j, true)
  else
    let data := Swap data i j in
    let '(data, j) := partitionLoop (b - a) data a (S i) (j - 1) in
    (Swap data j a, j, false).

(** [for i <= j && !data.Less(a, i) { i++ }] and
    [for i <= j && data.Less(a, j) { j-- }] *)
Fixpoint skipNotGreater (fuel : nat) (data : list A) (a i j : nat) : nat :=
  match fuel with
  | 0 => i
  | S fuel =>
      if (i <=? j) && negb (Less data a i) then skipNotGreater fuel data a (S i) j
      else i
  end.

Fixpoint skipGreater (fuel : nat) (data : list A) (a i j : nat) : nat :=
  match fuel with
  | 0 => j
  | S fuel =>
      if (i <=? j) && Less data a j then skipGreater fuel data a i (j - 1)
      else j
  end.

Fixpoint partitionEqualLoop (fuel : nat) (data : list A) (a i j : nat)
    : list A * nat :=
  match fuel with
  | 0 => (data, i)
  | S fuel =>
      let i := skipNotGreater (S j - i) data a i j in
      let j := skipGreater (S j - i) data a i j in
      if j <? i then (data, i)
      else partitionEqualLoop fuel (Swap data i j) a (S i) (j - 1)
  end.

Definition partitionEqual_func (data : list A) (a b pivot : nat)
    : list A * nat :=
  partitionEqualLoop (S (b - a)) (Swap data a pivot) a (a + 1) (b - 1).

(** [for i < b && !data.Less(i, i-1) { i++ }] *)
Fixpoint skipOrdered (fuel : nat) (data : list A) (i b : nat) : nat :=
  match fuel with
  | 0 => i
  | S fuel =>
      if (i <? b) && negb (Less data i (i - 1)) then skipOrdered fuel data (S i) b
      else i
  end.

(** [for j := i - 1; j >= 1; j-- { if !data.Less(j, j-1) { break }; data.Swap(j, j-1) }] *)
Fixpoint shiftLeft (data : list A) (j : nat) : list A :=
  match j with
  | 0 => data
  | S j' => if Less data j j' then shiftLeft (Swap data j j') j' else data
  end.

(** [for j := i + 1; j < b; j++ { if !data.Less(j, j-1) { break }; data.Swap(j, j-1) }] *)
Fixpoint shiftRight (fuel : nat) (data : list A) (j b : nat) : list A :=
  match fuel with
  | 0 => data
  | S fuel =>
      if (j <? b) && Less data j (j - 1)
      then shiftRight fuel (Swap data j (j - 1)) (S j) b
      else data
  end.

Fixpoint partialInsertionSortLoop (steps : nat) (data : list A) (a b i : nat)
    : list A * bool :=
  match steps with
  | 0 => (data, false)
  | S steps =>
      let i := skipOrdered (b - i) data i b in
      if i =? b then (data, true)
      else if b - a <? 50 then (data, false)
      else
        let data := Swap data i (i - 1) in
        let data := if 2 <=? i - a then shiftLeft data (i - 1) else data in
        let data := if 2 <=? b - i then shiftRight (b - i) data (i + 1) b else data in
        partialInsertionSortLoop steps data a b i
  end.

Definition partialInsertionSort_func (data : list A) (a b : nat) : list A * bool :=
  partialInsertionSortLoop 5 data a b (a + 1).

(** [xorshift.Next] on a [uint64]. *)
Definition xorshift_Next (r : Z) : Z :=
  let r := Z.lxor r (Z.shiftl r 13 mod 2 ^ 64) in
  let r := Z.lxor r (Z.shiftr r 7) in
  Z.lxor r (Z.shiftl r 17 mod 2 ^ 64).

(** [bits.Len]. *)
Definition bits_Len (n : nat) : nat :=
  match n with
  | 0 => 0
  | _ => S (Nat.log2 n)
  end.

Definition breakPatterns_func (data : list A) (a b : nat) : list A :=
  let length := b - a in
  if 8 <=? length then
    let modulus := 2 ^ bits_Len length in
    let idx := a + (length / 4) * 2 - 1 in
    fst (foldl (λ '(data, random) i,
                  let random := xorshift_Next random in
                  let other := Z.to_nat (Z.land random (Z.of_nat modulus - 1)) in
                  let other := if length <=? other then other - length else other in
                  (Swap data (idx - 1 + i) (a + other), random))
               (data, Z.of_nat length) (seq 0 3))
  else data.

Inductive sortedHint := unknownHint | increasingHint | decreasingHint.

Definition order2_func (data : list A) (a b swaps : nat) : nat * nat * nat :=
  if Less data b a then (b, a, S swaps) else (a, b, swaps).

Definition median_func (data : list A) (a b c swaps : nat) : nat * nat :=
  let '(a, b, swaps) := order2_func data a b swaps in
  let '(b, c, swaps) := order2_func data b c swaps in
  let '(a, b, swaps) := order2_func data a b swaps in
  (b, swaps).

Definition medianAdjacent_func (data : list A) (a swaps : nat) : nat * nat :=
  median_func data (a - 1) a (a + 1) swaps.

Definition choosePivot_func (data : list A) (a b : nat) : nat * sortedHint :=
  let l := b - a in
  let swaps := 0 in
  let i := a + l / 4 * 1 in
  let j := a + l / 4 * 2 in
  let k := a + l / 4 * 3 in
  let '(j, swaps) :=
    if 8 <=? l then
      let '(i, j, k, swaps) :=
        if 50 <=? l then
          let '(i, swaps) := medianAdjacent_func data i swaps in
          let '(j, swaps) := medianAdjacent_func data j swaps in
          let '(k, swaps) := medianAdjacent_func data k swaps in
          (i, j, k, swaps)
        else (i, j, k, swaps) in
      median_func data i j k swaps
    else (j, swaps) in
  if swaps =? 0 then (j, increasingHint)
  else if swaps =? 4 * 3 then (j, decreasingHint)
  else (j, unknownHint).

Fixpoint reverseRangeLoop (fuel : nat) (data : list A) (i j : nat) : list A :=
  match fuel with
  | 0 => data
  | S fuel =>
      if i <? j then reverseRangeLoop fuel (Swap data i j) (S i) (j - 1)
      else data
  end.

Definition reverseRange_func (data : list A) (a b : nat) : list A :=
  reverseRangeLoop (b - a) data a (b - 1).

Definition isIncreasing (h : sortedHint) : bool :=
  match h with increasingHint => true | _ => false end.

Definition isDecreasing (h : sortedHint) : bool :=
  match h with decreasingHint => true | _ => false end.

(** [pdqsort_func] sorts [data[a:b]]. Every turn of its loop and every
    recursive call works on a strictly shorter range; [fuel] counts them,
    and [None] means it ran out. *)
Fixpoint pdqsort_func (fuel : nat) (data : list A) (a b limit : nat)
    (wasBalanced wasPartitioned : bool) : option (list A) :=
  match fuel with
  | 0 => None
  | S fuel =>
      let length := b - a in
      if length <=? 12 then Some (insertionSort_func data a b)
      else if limit =? 0 then Some (heapSort_func data a b)
      else
        let '(data, limit) :=
          if negb wasBalanced then (breakPatterns_func data a b, limit - 1)
          else (data, limit) in
        let '(pivot, hint) := choosePivot_func data a b in
        let '(data, pivot, hint) :=
          if isDecreasing hint
          then (reverseRange_func data a b, (b - 1) - (pivot - a), increasingHint)
          else (data, pivot, hint) in
        let '(data, sorted) :=
          if wasBalanced && wasPartitioned && isIncreasing hint
          then partialInsertionSort_func data a b
          else (data, false) in
        if sorted then Some data
        else if (0 <? a) && negb (Less data (a - 1) pivot) then
          let '(data, mid) := partitionEqual_func data a b pivot in
          pdqsort_func fuel data mid b limit wasBalanced wasPartitioned
        else
          let '(data, mid, alreadyPartitioned) := partition_func data a b pivot in
          let wasPartitioned := alreadyPartitioned in
          let leftLen := mid - a in
          let rightLen := b - mid in
          let balanceThreshold := length / 8 in
          if leftLen <? rightLen then
            let wasBalanced := balanceThreshold <=? leftLen in
            data ← pdqsort_func fuel data a mid limit true true;
            pdqsort_func fuel data (mid + 1) b limit wasBalanced wasPartitioned
          else
            let wasBalanced := balanceThreshold <=? rightLen in
            data ← pdqsort_func fuel data (mid + 1) b limit true true;
            pdqsort_func fuel data a mid limit wasBalanced wasPartitioned
  end.

(** [sort.Slice(x, less)]. *)
Definition go_sort_Slice (x : list A) : option (list A) :=
  let length := length x in
  let limit := bits_Len length in
  pdqsort_func (S length) x 0 length limit true true.

End GoSort.

(** ** Output stream, cluster and the command's effects

    The program writes to [o.Out] and queries the cluster once. Both are
    threaded through a state: the bytes handed to the stream so far, in the
    order of the writes, and the list queries issued so far, as (namespace,
    label selector). *)

Record World := {
  Out : string;
  queries : list (string * string)
}.

Definition M (A : Type) : Type := World → Result A * World.

Definition fail {A} (e : error) : M A := λ w, (Err e, w).

(** A run-time panic: the call does not return, and nothing in the program
    recovers it, so it ends the run where it stands. *)
Definition panic {A} (msg : string) : M A := fail (ErrPanic msg).

(** The panic of a method call on a nil interface value. *)
Definition nilDereference : string :=
  "runtime error: invalid memory address or nil pointer dereference".

#[global] Instance M_ret : MRet M := λ A a w, (Ok a, w).
#[global] Instance M_bind : MBind M := λ A B k m w,
  match m w with
  | (Ok a, w') => k a w'
  | (Err e, w') => (Err e, w')
  end.

(** [fmt.Fprintf(out, ...)] with its result discarded: the data is handed
    to the stream, whatever the stream answers. *)
Definition Fprint (s : string) : M unit :=
  λ w, (Ok tt, {| Out := Out w +:+ s; queries := queries w |}).

Definition newline : string := String (ascii_of_nat 10) "".

Fixpoint forEach {A} (l : list A) (body : A → M unit) : M unit :=
  match l with
  | [] => mret tt
  | x :: rest => body x ;; forEach rest body
  end.

Section Program.
Context (L : Library).

Definition sortPodIPsWithPods (podIPs : list podIPWithPod) : list podIPWithPod :=
  sort_Slice L less podIPs.

(** ** Field formatters *)

Definition noneValue : string := "<none>".
Definition unknownValue : string := "<unknown>".

Definition FormatPodAge (p : Pod) : string :=
  match CreationTimestamp p with
  | None => unknownValue
  | Some t => duration_HumanDuration L (time_Since L t)
  end.

(** In the three functions below a [nil] [State.Terminated] would be a nil
    dereference in Go; every caller has tested it before the call. *)
Definition formatInitTerminatedReason (container : ContainerStatus) : string :=
  match Terminated (State container) with
  | None => ""
  | Some t =>
      if String.eqb (Terminated_Reason t) "" then
        if negb (Signal t =? 0)%Z
        then "Init:Signal:" +:+ pretty (Signal t)
        else "Init:ExitCode:" +:+ pretty (ExitCode t)
      else "Init:" +:+ Terminated_Reason t
  end.

Fixpoint checkInitContainersFrom (total i : nat) (cs : list ContainerStatus)
    : string * bool :=
  match cs with
  | [] => ("", false)
  | container :: rest =>
      match Terminated (State container), Waiting (State container) with
      | Some t, w =>
          if (ExitCode t =? 0)%Z
          then checkInitContainersFrom total (S i) rest
          else (formatInitTerminatedReason container, true)
      | None, Some w =>
          if go_neq (Waiting_Reason w) ""
             && go_neq (Waiting_Reason w) "PodInitializing"
          then ("Init:" +:+ Waiting_Reason w, true)
          else ("Init:" +:+ pretty i +:+ "/" +:+ pretty total, true)
      | None, None =>
          ("Init:" +:+ pretty i +:+ "/" +:+ pretty total, true)
      end
  end.

Definition checkInitContainers (p : Pod) : string * bool :=
  checkInitContainersFrom (length (InitContainerStatuses (Status p))) 0
    (InitContainerStatuses (Status p)).

Definition formatTerminatedReason (container : ContainerStatus) : string :=
  match Terminated (State container) with
  | None => ""
  | Some t =>
      if negb (Signal t =? 0)%Z
      then "Signal:" +:+ pretty (Signal t)
      else "ExitCode:" +:+ pretty (ExitCode t)
  end.

Definition getContainerReason (container : ContainerStatus) : string :=
  match Waiting (State container) with
  | Some w =>
      if go_neq (Waiting_Reason w) "" then Waiting_Reason w
      else match Terminated (State container) with
           | Some t =>
               if go_neq (Terminated_Reason t) "" then Terminated_Reason t
               else formatTerminatedReason container
           | None => ""
           end
  | None =>
      match Terminated (State container) with
      | Some t =>
          if go_neq (Terminated_Reason t) "" then Terminated_Reason t
          else formatTerminatedReason container
      | None => ""
      end
  end.

(** The loop runs from the last container status down to the first. *)
Definition checkMainContainers (p : Pod) (currentReason : string) : string :=
  let '(reason, hasRunning) :=
    foldl (λ '(reason, hasRunning) container,
             let newReason := getContainerReason container in
             (if go_neq newReason "" then newReason else reason,
              if Ready container && bool_decide (is_Some (Running (State container)))
              then true else hasRunning))
          (currentReason, false)
          (reverse (ContainerStatuses (Status p))) in
  if String.eqb reason "Completed" && hasRunning then "Running" else reason.

Definition handlePodDeletion (p : Pod) (reason : string) : string :=
  match DeletionTimestamp p with
  | Some _ =>
      if String.eqb (Reason (Status p)) "NodeLost" then "Unknown" else "Terminating"
  | None => reason
  end.

Definition FormatPodStatus (p : Pod) : string :=
  let reason := Phase (Status p) in
  let reason := if go_neq (Reason (Status p)) "" then Reason (Status p) else reason in
  let reason :=
    match checkInitContainers p with
    | (initReason, true) => initReason
    | (_, false) => checkMainContainers p reason
    end in
  handlePodDeletion p reason.

Definition FormatPodReady (p : Pod) : string :=
  let totalContainers := length (ContainerStatuses (Status p)) in
  let readyContainers :=
    foldl (λ n c, if Ready c then S n else n) 0%nat (ContainerStatuses (Status p)) in
  pretty readyContainers +:+ "/" +:+ pretty totalContainers.

(** [int32] addition wraps around. *)
Definition wrap32 (z : Z) : Z := ((z + 2 ^ 31) mod 2 ^ 32 - 2 ^ 31)%Z.

Definition FormatRestarts (p : Pod) : string :=
  let restarts :=
    foldl (λ r c, wrap32 (r + RestartCount c)) 0%Z (ContainerStatuses (Status p)) in
  pretty restarts.

Definition FormatLabels (labels : gmap string string) : string :=
  if (size labels =? 0)%nat then noneValue
  else String.concat ","
         (foldl (λ labelStrings kv, labelStrings ++ [fst kv +:+ "=" +:+ snd kv])
                [] (range_map L labels)).

Definition GetNodeName (p : Pod) : string :=
  if go_neq (NodeName (Spec p)) "" then NodeName (Spec p) else noneValue.

(** ** Table builder *)

Definition makeTableRow (p : Pod) (ip : string)
    (showNamespace wide showLabels : bool) : list string :=
  let row := [] in
  let row := if showNamespace then row ++ [Namespace p] else row in
  let row := row ++ [Name p; ip; FormatPodStatus p] in
  let row :=
    if wide then row ++ [FormatPodReady p; FormatRestarts p; GetNodeName p]
    else row in
  let row := row ++ [FormatPodAge p] in
  let row := if showLabels then row ++ [FormatLabels (Labels p)] else row in
  row.

Definition column (name : string) (priority : Z) : TableColumnDefinition :=
  {| col_Name := name; col_Type := "string"; Priority := priority |}.

Definition makeTableHeaders (showNamespace wide showLabels : bool)
    : list TableColumnDefinition :=
  let columns := [] in
  let columns :=
    if showNamespace then columns ++ [column "NAMESPACE" 0] else columns in
  let columns := columns ++ [column "NAME" 0; column "IP" 0; column "STATUS" 0] in
  let columns :=
    if wide
    then columns ++ [column "READY" 1; column "RESTARTS" 1; column "NODE" 1]
    else columns in
  let columns := columns ++ [column "AGE" 0] in
  let columns := if showLabels then columns ++ [column "LABELS" 1] else columns in
  columns.

Definition generateTable (pods : PodList) (showNamespace wide showLabels : bool)
    : Table :=
  let podIPList := sortPodIPsWithPods (extractPodIPsWithPods pods) in
  foldl (λ table item,
           {| ColumnDefinitions := ColumnDefinitions table;
              Rows := Rows table ++
                [{| Cells := makeTableRow (pod item) (ip item)
                               showNamespace wide showLabels;
                    Object := pod item |}] |})
        {| ColumnDefinitions := makeTableHeaders showNamespace wide showLabels;
           Rows := [] |}
        podIPList.

(** ** Printers *)

Inductive ResourcePrinter :=
| jsonPrinter
| yamlPrinter
| namePrinter (showNamespace : bool)
| tablePrinter (noHeaders : bool)       (* printers.NewTablePrinter *)
| ipOnlyPrinter.

Definition jsonFormat : string := "json".
Definition yamlFormat : string := "yaml".
Definition nameFormat : string := "name".
Definition tableFormat : string := "table".
Definition wideFormat : string := "wide".

Definition createPrinter (outputFormat : string) (noHeaders showNamespace : bool)
    : Result ResourcePrinter :=
  if String.eqb outputFormat jsonFormat then Ok jsonPrinter
  else if String.eqb outputFormat yamlFormat then Ok yamlPrinter
  else if String.eqb outputFormat nameFormat then Ok (namePrinter showNamespace)
  else if String.eqb outputFormat tableFormat
          || String.eqb outputFormat wideFormat
          || String.eqb outputFormat ""
  then Ok (tablePrinter noHeaders)
  else Err ErrUnsupportedFormat.

(** [row.Cells[i]], read only after the length test. *)
Definition cell (row : TableRow) (i : nat) : string := default "" (Cells row !! i).

Definition namePrinter_row (showNamespace : bool) (row : TableRow) : M unit :=
  if (length (Cells row) <? 2)%nat then mret tt
  else if showNamespace && (0 <? length (Cells row))%nat
  then Fprint (cell row 0 +:+ "/" +:+ cell row 1 +:+ newline)
  else if (0 <? length (Cells row))%nat
  then Fprint (cell row 0 +:+ newline)
  else mret tt.

(** [fmt.Fprint(out, ...)] with its error looked at: the data is handed to
    the stream, whose answer is returned. *)
Definition FprintErr (s : string) : M unit :=
  λ w, (match Writer_Write L (Out w) s with
        | Some e => Err e
        | None => Ok tt
        end,
        {| Out := Out w +:+ s; queries := queries w |}).

Definition PrintObj (p : ResourcePrinter) (obj : RuntimeObject) : M unit :=
  match p with
  | jsonPrinter =>
      match json_MarshalIndent L obj with
      | Err e => fail (ErrWrap "failed to marshal JSON" e)
      | Ok data =>
          λ w, match FprintErr (data +:+ newline) w with
               | (Err e, w') => (Err (ErrWrap "failed to write JSON" e), w')
               | r => r
               end
      end
  | yamlPrinter =>
      match yaml_Marshal L obj with
      | Err e => fail (ErrWrap "failed to marshal YAML" e)
      | Ok data =>
          λ w, match FprintErr data w with
               | (Err e, w') => (Err (ErrWrap "failed to write YAML" e), w')
               | r => r
               end
      end
  | namePrinter showNamespace =>
      match obj with
      | ObjTable table => forEach (Rows table) (namePrinter_row showNamespace)
      | _ => fail ErrExpectedTable
      end
  | tablePrinter noHeaders =>
      match TablePrinter_PrintObj L noHeaders obj with
      | Err e => fail e
      | Ok text => Fprint text
      end
  | ipOnlyPrinter =>
      match obj with
      | ObjPodList pods =>
          let podIPs := sortPodIPsWithPods (extractPodIPsWithPods pods) in
          forEach podIPs (λ item, Fprint (ip item +:+ newline))
      | _ => fail ErrExpectedPodList
      end
  end.

(** ** The [ips] command *)

(** The cluster as [getPods] sees it: whether the REST configuration and the
    client can be built, and what a list query answers. *)
Record Cluster := {
  ToRESTConfig : option error;
  NewForConfig : option error;
  Pods_List : string → string → Result PodList
}.

Inductive FlagValue :=
| FlagString (s : string)
| FlagBool (b : bool).

(** [cmd.Flags()] is a [gmap string FlagValue]: the flags the command
    declares, with their parsed values. *)
Definition GetString (flags : gmap string FlagValue) (name : string) : Result string :=
  match flags !! name with
  | Some (FlagString s) => Ok s
  | Some (FlagBool _) => Err (ErrLibrary "trying to get string value of flag of another type")
  | None => Err (ErrLibrary "flag accessed but not defined")
  end.

Record IPsOptions := {
  configFlags_Namespace : option string;
  allNamespaces : bool;
  labelSelector : string;
  showIPsOnly : bool;
  namespace : string;
  outputFormat : string;
  noHeaders : bool;
  showLabels : bool
}.

Definition set_namespace (o : IPsOptions) (ns : string) : IPsOptions :=
  {| configFlags_Namespace := configFlags_Namespace o;
     allNamespaces := allNamespaces o;
     labelSelector := labelSelector o;
     showIPsOnly := showIPsOnly o;
     namespace := ns;
     outputFormat := outputFormat o;
     noHeaders := noHeaders o;
     showLabels := showLabels o |}.

Definition Complete (o : IPsOptions) (flags : gmap string FlagValue)
    : Result IPsOptions :=
  match GetString flags "namespace" with
  | Err e => Err (ErrWrap "failed to get namespace flag" e)
  | Ok ns =>
      let o := set_namespace o ns in
      let o := if allNamespaces o then set_namespace o "" else o in
      let o :=
        if String.eqb (namespace o) "" && negb (allNamespaces o) then
          match configFlags_Namespace o with
          | Some cns =>
              if go_neq cns "" then set_namespace o cns
              else set_namespace o "default"
          | None => set_namespace o "default"
          end
        else o in
      Ok o
  end.

Definition Validate (o : IPsOptions) : Result unit :=
  if String.eqb (outputFormat o) tableFormat
     || String.eqb (outputFormat o) wideFormat
     || String.eqb (outputFormat o) jsonFormat
     || String.eqb (outputFormat o) yamlFormat
     || String.eqb (outputFormat o) nameFormat
     || String.eqb (outputFormat o) ""
  then Ok tt
  else Err ErrUnsupportedFormat.

Context (C : Cluster).

(** The list query is the one cluster call; it is recorded in [queries]. *)
Definition listPods (ns selector : string) : M PodList :=
  λ w, (Pods_List C ns selector,
        {| Out := Out w; queries := queries w ++ [(ns, selector)] |}).

Definition getPods (o : IPsOptions) : M PodList :=
  match ToRESTConfig C with
  | Some e => fail (ErrWrap "failed to get REST config" e)
  | None =>
      match NewForConfig C with
      | Some e => fail (ErrWrap "failed to create kubernetes client" e)
      | None =>
          let listOptions := "" in
          let listOptions :=
            if go_neq (labelSelector o) "" then labelSelector o else listOptions in
          λ w,
            match (if allNamespaces o then listPods "" listOptions
                   else listPods (namespace o) listOptions) w with
            | (Err e, w') => (Err (ErrWrap "failed to list pods" e), w')
            | r => r
            end
      end
  end.

(** The error of [labels.Parse] is discarded: on a selector that does not
    parse, [selector] is nil and [selector.String()] panics. *)
Definition printNoPodsFound (o : IPsOptions) : M unit :=
  let ns := namespace o in
  let ns := if String.eqb ns "" then "all namespaces" else ns in
  let selectorInfo := "" in
  if go_neq (labelSelector o) "" then
    match labels_Parse L (labelSelector o) with
    | Ok selector =>
        let selectorInfo := " matching selector " +:+ fmt_q L selector in
        Fprint ("No pods found in " +:+ ns +:+ selectorInfo +:+ newline)
    | Err _ => panic nilDereference
    end
  else Fprint ("No pods found in " +:+ ns +:+ selectorInfo +:+ newline).

Definition Run (o : IPsOptions) : M unit :=
  pods ← getPods o;
  if showIPsOnly o then PrintObj ipOnlyPrinter (ObjPodList pods)
  else if (length (Items pods) =? 0)%nat then printNoPodsFound o
  else
    let wide := String.eqb (outputFormat o) wideFormat in
    let table := generateTable pods (allNamespaces o) wide (showLabels o) in
    if (length (Rows table) =? 0)%nat then printNoPodsFound o
    else
      match createPrinter (outputFormat o) (noHeaders o) (allNamespaces o) with
      | Err e => fail e
      | Ok printer =>
          λ w, match PrintObj printer (ObjTable table) w with
               | (Err e, w') => (Err (ErrWrap "failed to print object" e), w')
               | r => r
               end
      end.

(** [RunE] of the command built by [NewCmdIPs]. *)
Definition RunE (o : IPsOptions) (flags : gmap string FlagValue) : M unit :=
  match Complete o flags with
  | Err e => fail e
  | Ok o =>
      match Validate o with
      | Err e => fail e
      | Ok _ => Run o
      end
  end.

(** The command line after parsing: the value of every flag [NewCmdIPs]
    declares, defaults included ([--output] defaults to ["table"]). *)
Record Args := {
  arg_all_namespaces : bool;
  arg_selector : string;
  arg_show_ips_only : bool;
  arg_output : string;
  arg_no_headers : bool;
  arg_show_labels : bool;
  arg_namespace : string
}.

(** [NewCmdIPs]: the options bound to the flags and the command's flag set.
    [configFlags.AddFlags] declares [--namespace] and binds it to
    [configFlags.Namespace]. *)
Definition NewCmdIPs (a : Args) : IPsOptions * gmap string FlagValue :=
  ({| configFlags_Namespace := Some (arg_namespace a);
      allNamespaces := arg_all_namespaces a;
      labelSelector := arg_selector a;
      showIPsOnly := arg_show_ips_only a;
      namespace := "";
      outputFormat := arg_output a;
      noHeaders := arg_no_headers a;
      showLabels := arg_show_labels a |},
   list_to_map
     [("all-namespaces", FlagBool (arg_all_namespaces a));
      ("selector", FlagString (arg_selector a));
      ("show-ips-only", FlagBool (arg_show_ips_only a));
      ("output", FlagString (arg_output a));
      ("no-headers", FlagBool (arg_no_headers a));
      ("show-labels", FlagBool (arg_show_labels a));
      ("namespace", FlagString (arg_namespace a))]).

(** [root.Execute()] on a fresh output stream; [main] exits with status 1
    exactly when it returns an error, and a panic ends the process with
    status 2. *)
Definition Execute (a : Args) : Result unit * World :=
  let '(o, flags) := NewCmdIPs a in
  RunE o flags {| Out := ""; queries := [] |}.

Definition exitCode (r : Result unit) : Z :=
  match r with
  | Ok _ => 0
  | Err (ErrPanic _) => 2     (* the Go runtime's exit status for a panic *)
  | Err _ => 1
  end.

End Program.

(** * Vocabulary of the specification *)

(** The sort key of a pair and the lexicographic order on keys: namespace,
    then pod name, then IP, each compared as a string. *)
Definition key (a : podIPWithPod) : string * string * string :=
  (Namespace (pod a), Name (pod a), ip a).

Definition lex_le (k1 k2 : string * string * string) : Prop :=
  let '(ns1, n1, ip1) := k1 in
  let '(ns2, n2, ip2) := k2 in
  go_lt ns1 ns2 = true ∨
  (ns1 = ns2 ∧
   (go_lt n1 n2 = true ∨
    (n1 = n2 ∧ (go_lt ip1 ip2 = true ∨ ip1 = ip2)))).

(** A sort is stable on [l] when the pairs of each key stand in [l'] in the
    order they had in [l]. *)
Definition stable_on (l l' : list podIPWithPod) : Prop :=
  ∀ k, filter (λ a, key a = k) l' = filter (λ a, key a = k) l.

(** The IP strings a pod's status carries: the primary one, then the
    secondary list. *)
Definition statusIPs (p : Pod) : list string :=
  PodIP (Status p) :: map IP (PodIPs (Status p)).

(** No IP string stands on two different pods of the list. *)
Definition shareNoIPs (items : list Pod) : Prop :=
  ∀ i j p q x,
    i ≠ j → items !! i = Some p → items !! j = Some q →
    x ≠ "" → x ∈ statusIPs p → x ∉ statusIPs q.

(** What the extractor emits for one pod [p]: pairs of [p] with non-empty,
    pairwise different IPs, standing in the order of [statusIPs p], the
    primary IP first whenever it is not empty. *)
Definition blockOf (p : Pod) (b : list podIPWithPod) : Prop :=
  (∀ a, a ∈ b → pod a = p ∧ ip a ≠ "") ∧
  (ip <$> b) `sublist_of` statusIPs p ∧
  NoDup (ip <$> b) ∧
  (PodIP (Status p) ≠ "" → head b = Some {| pod := p; ip := PodIP (Status p) |}).

(** The extractor's loop invariant: [uniqueIPs] holds exactly the IPs of the
    pairs appended so far. *)
Definition tracks (acc : list podIPWithPod) (u : gmap string bool) : Prop :=
  ∀ x, seen u x = true ↔ x ∈ ip <$> acc.

(** The text of lines, each ended by a newline. *)
Definition unlines (lines : list string) : string :=
  foldr (λ l text, l +:+ newline +:+ text) "" lines.

(** The namespace [Complete] settles on for the command built from [a]. *)
Definition targetNamespace (a : Args) : string :=
  if arg_all_namespaces a then ""
  else if String.eqb (arg_namespace a) "" then "default"
  else arg_namespace a.

(** The line of name output for a pair: the pod's name, behind its
    namespace and a slash when [showNamespace] is set. *)
Definition nameLine (showNamespace : bool) (item : podIPWithPod) : string :=
  if showNamespace then Namespace (pod item) +:+ "/" +:+ Name (pod item)
  else Name (pod item).

(** The options after [Complete], for the command built from [a]. *)
Definition completed (a : Args) : IPsOptions :=
  {| configFlags_Namespace := Some (arg_namespace a);
     allNamespaces := arg_all_namespaces a;
     labelSelector := arg_selector a;
     showIPsOnly := arg_show_ips_only a;
     namespace := targetNamespace a;
     outputFormat := arg_output a;
     noHeaders := arg_no_headers a;
     showLabels := arg_show_labels a |}.

(** The world after the command's one list query and the text it wrote. *)
Definition afterQuery (a : Args) (text : string) : World :=
  {| Out := text; queries := [(targetNamespace a, arg_selector a)] |}.

(** A cluster that is reachable and answers the command's list query with
    [pods]. *)
Definition answers (C : Cluster) (a : Args) (pods : PodList) : Prop :=
  ToRESTConfig C = None ∧ NewForConfig C = None ∧
  Pods_List C (targetNamespace a) (arg_selector a) = Ok pods.

Definition validFormats : list string :=
  [tableFormat; wideFormat; jsonFormat; yamlFormat; nameFormat; ""].

(** ** Vocabulary of the formatters and printers *)

(** An init container that terminated with exit code zero. *)
Definition initDone (c : ContainerStatus) : bool :=
  match Terminated (State c) with
  | Some t => (ExitCode t =? 0)%Z
  | None => false
  end.

(** The reason of the first container status, in the order of the list,
    that has one; [fallback] when none has. *)
Fixpoint firstReason (cs : list ContainerStatus) (fallback : string) : string :=
  match cs with
  | [] => fallback
  | c :: rest =>
      if go_neq (getContainerReason c) "" then getContainerReason c
      else firstReason rest fallback
  end.

(** Some container is running and ready. *)
Definition anyRunningReady (cs : list ContainerStatus) : bool :=
  existsb (λ c, Ready c && bool_decide (is_Some (Running (State c)))) cs.

(** The sum of the restart counts, as an integer. *)
Definition restartSum (cs : list ContainerStatus) : Z :=
  foldr (λ c total, (RestartCount c + total)%Z) 0%Z cs.

(** What name output shows for a row: its first cell, or its first two
    cells around a slash. *)
Definition nameOf (showNamespace : bool) (row : TableRow) : string :=
  if showNamespace then cell row 0 +:+ "/" +:+ cell row 1 else cell row 0.

(** The world before the command has done anything. *)
Definition initialWorld : World := {| Out := ""; queries := [] |}.

(** What the extractor emits for a pod listed alone. *)
Definition ownPairs (p : Pod) : list podIPWithPod :=
  extractPodIPsWithPods {| Items := [p] |}.

(** The table [Run] builds for the command line [a] from [pods]. *)
Definition tableFor (L : Library) (a : Args) (pods : PodList) : Table :=
  generateTable L pods (arg_all_namespaces a)
    (String.eqb (arg_output a) wideFormat) (arg_show_labels a).

(** ** Concrete collaborators and inputs

    Three libraries: one whose [sort.Slice] is insertion sort; one whose
    sort is insertion sort from the right, which orders every slice but
    reverses equal elements; and one whose [sort.Slice] is Go's algorithm.
    The other collaborators are simple stand-ins. *)
Definition insertionLibrary : Library :=
  {| sort_Slice := λ lt l, insertionSort lt l;
     time_Since := λ t, (7200000000000 - t)%Z;
     duration_HumanDuration := λ d, pretty (d / 60000000000)%Z +:+ "m";
     range_map := map_to_list;
     json_MarshalIndent := λ _, Ok "{}";
     yaml_Marshal := λ _, Ok "{}";
     TablePrinter_PrintObj := λ _ _, Ok "";
     labels_Parse := λ s, Ok s;
     fmt_q := λ s, s;
     Writer_Write := λ _ _, None |}.

Definition reversingLibrary : Library :=
  {| sort_Slice := λ lt l, insertionSort lt (reverse l);
     time_Since := time_Since insertionLibrary;
     duration_HumanDuration := duration_HumanDuration insertionLibrary;
     range_map := range_map insertionLibrary;
     json_MarshalIndent := json_MarshalIndent insertionLibrary;
     yaml_Marshal := yaml_Marshal insertionLibrary;
     TablePrinter_PrintObj := TablePrinter_PrintObj insertionLibrary;
     labels_Parse := labels_Parse insertionLibrary;
     fmt_q := fmt_q insertionLibrary;
     Writer_Write := Writer_Write insertionLibrary |}.

Definition goLibrary : Library :=
  {| sort_Slice := λ lt l, default l (go_sort_Slice lt l);
     time_Since := time_Since insertionLibrary;
     duration_HumanDuration := duration_HumanDuration insertionLibrary;
     range_map := range_map insertionLibrary;
     json_MarshalIndent := json_MarshalIndent insertionLibrary;
     yaml_Marshal := yaml_Marshal insertionLibrary;
     TablePrinter_PrintObj := TablePrinter_PrintObj insertionLibrary;
     labels_Parse := labels_Parse insertionLibrary;
     fmt_q := fmt_q insertionLibrary;
     Writer_Write := Writer_Write insertionLibrary |}.

(** A library whose selector parser accepts nothing and whose stream
    refuses every write. *)
Definition refusingLibrary : Library :=
  {| sort_Slice := sort_Slice insertionLibrary;
     time_Since := time_Since insertionLibrary;
     duration_HumanDuration := duration_HumanDuration insertionLibrary;
     range_map := range_map insertionLibrary;
     json_MarshalIndent := json_MarshalIndent insertionLibrary;
     yaml_Marshal := yaml_Marshal insertionLibrary;
     TablePrinter_PrintObj := TablePrinter_PrintObj insertionLibrary;
     labels_Parse := λ _, Err (ErrLibrary "unable to parse requirement");
     fmt_q := fmt_q insertionLibrary;
     Writer_Write := λ _ _, Some (ErrLibrary "broken pipe") |}.

Definition runningPod (ns name node primary : string) (secondary : list string)
    : Pod :=
  {| Name := name;
     Namespace := ns;
     CreationTimestamp := Some 0%Z;
     DeletionTimestamp := None;
     Labels := ∅;
     Spec := {| NodeName := node |};
     Status := {| Phase := "Running";
                  Reason := "";
                  PodIP := primary;
                  PodIPs := map Build_PodIPEntry secondary;
                  InitContainerStatuses := [];
                  ContainerStatuses := [] |} |}.

(** Two pairs with one key: pods of the same namespace and name on different
    nodes, with the same IP. *)
Definition twinA : podIPWithPod :=
  {| pod := runningPod "default" "web" "node-a" "10.0.0.1" []; ip := "10.0.0.1" |}.
Definition twinB : podIPWithPod :=
  {| pod := runningPod "default" "web" "node-b" "10.0.0.1" []; ip := "10.0.0.1" |}.

(** Thirteen pairs, one per pod, of pods [pod-00] to [pod-11] on [node-a]
    with IPs 10.0.1.0 to 10.0.1.11; [pod-05] occurs twice, the second time
    on [node-b]. *)
Definition numbered (k : nat) (node : string) : podIPWithPod :=
  {| pod := runningPod "default"
              ("pod-" +:+ (if (k <? 10)%nat then "0" else "") +:+ pretty k)
              node ("10.0.1." +:+ pretty k) [];
     ip := "10.0.1." +:+ pretty k |}.

Definition thirteen : list podIPWithPod :=
  [numbered 3 "node-a"; numbered 11 "node-a"; numbered 5 "node-a";
   numbered 7 "node-a"; numbered 9 "node-a"; numbered 4 "node-a";
   numbered 5 "node-b"; numbered 8 "node-a"; numbered 1 "node-a";
   numbered 0 "node-a"; numbered 10 "node-a"; numbered 6 "node-a";
   numbered 2 "node-a"].


Definition hostNetA : Pod :=
  runningPod "kube-system" "proxy-a" "node-a" "10.0.0.1" ["10.0.0.1"; "fd00::1"].
Definition hostNetB : Pod :=
  runningPod "kube-system" "proxy-b" "node-a" "10.0.0.1" ["10.0.0.1"; "fd00::1"].

Definition podA : Pod := runningPod "default" "a" "node-a" "10.0.0.2" [].
Definition podB : Pod := runningPod "default" "b" "node-a" "10.0.0.1" [].

(** A pod whose init container keeps crashing and whose node is lost, with
    and without a deletion timestamp. *)
Definition crashingInit : ContainerStatus :=
  {| State := {| Waiting := Some {| Waiting_Reason := "CrashLoopBackOff" |};
                 Running := None;
                 Terminated := None |};
     Ready := false;
     RestartCount := 7 |}.

Definition lostPod (deletion : option Z) : Pod :=
  {| Name := "web";
     Namespace := "default";
     CreationTimestamp := Some 0%Z;
     DeletionTimestamp := deletion;
     Labels := ∅;
     Spec := {| NodeName := "node-a" |};
     Status := {| Phase := "Pending";
                  Reason := "NodeLost";
                  PodIP := "10.0.0.1";
                  PodIPs := [];
                  InitContainerStatuses := [crashingInit];
                  ContainerStatuses := [] |} |}.

(** The pods of the repository's formatter tests. *)
Definition phasePod (phase : string) (deletion : option Z) : Pod :=
  {| Name := ""; Namespace := "";
     CreationTimestamp := None; DeletionTimestamp := deletion;
     Labels := ∅; Spec := {| NodeName := "" |};
     Status := {| Phase := phase; Reason := ""; PodIP := ""; PodIPs := [];
                  InitContainerStatuses := []; ContainerStatuses := [] |} |}.

Definition containerStatus (ready : bool) (restarts : Z) : ContainerStatus :=
  {| State := {| Waiting := None; Running := None; Terminated := None |};
     Ready := ready;
     RestartCount := restarts |}.

Definition containersPod (cs : list ContainerStatus) : Pod :=
  {| Name := ""; Namespace := "";
     CreationTimestamp := None; DeletionTimestamp := None;
     Labels := ∅; Spec := {| NodeName := "" |};
     Status := {| Phase := ""; Reason := ""; PodIP := ""; PodIPs := [];
                  InitContainerStatuses := []; ContainerStatuses := cs |} |}.

(** A pod whose second init container is still waiting to be started, and
    a pod whose job container completed beside a running sidecar. *)
Definition finishedInit : ContainerStatus :=
  {| State := {| Waiting := None; Running := None;
                 Terminated := Some {| ExitCode := 0; Signal := 0;
                                       Terminated_Reason := "Completed" |} |};
     Ready := false;
     RestartCount := 0 |}.

Definition pendingInit : ContainerStatus :=
  {| State := {| Waiting := Some {| Waiting_Reason := "PodInitializing" |};
                 Running := None; Terminated := None |};
     Ready := false;
     RestartCount := 0 |}.

Definition runningSidecar : ContainerStatus :=
  {| State := {| Waiting := None; Running := Some tt; Terminated := None |};
     Ready := true;
     RestartCount := 2 |}.

Definition statusPod (inits cs : list ContainerStatus) : Pod :=
  {| Name := "job"; Namespace := "default";
     CreationTimestamp := Some 0%Z; DeletionTimestamp := None;
     Labels := ∅; Spec := {| NodeName := "node-a" |};
     Status := {| Phase := "Running"; Reason := ""; PodIP := "10.0.0.9";
                  PodIPs := [];
                  InitContainerStatuses := inits; ContainerStatuses := cs |} |}.

Definition constCluster (pods : PodList) : Cluster :=
  {| ToRESTConfig := None;
     NewForConfig := None;
     Pods_List := λ _ _, Ok pods |}.

(** A cluster that is reachable but refuses the list query. *)
Definition refusingCluster (e : error) : Cluster :=
  {| ToRESTConfig := None;
     NewForConfig := None;
     Pods_List := λ _ _, Err e |}.

(** * Properties *)

(** ** The repository's formatter tests, run on the embedding *)

Example test_FormatPodStatus :
  FormatPodStatus (phasePod "Running" None) = "Running" ∧
  FormatPodStatus (phasePod "Pending" None) = "Pending" ∧
  FormatPodStatus (phasePod "Succeeded" None) = "Succeeded" ∧
  FormatPodStatus (phasePod "Failed" None) = "Failed" ∧
  FormatPodStatus (phasePod "Running" (Some 1%Z)) = "Terminating".
Proof. repeat split. Qed.

Example test_FormatPodReady :
  FormatPodReady (containersPod [containerStatus true 0; containerStatus true 0])
  = "2/2" ∧
  FormatPodReady (containersPod [containerStatus true 0; containerStatus false 0;
                                 containerStatus true 0]) = "2/3" ∧
  FormatPodReady (containersPod [containerStatus false 0; containerStatus false 0])
  = "0/2" ∧
  FormatPodReady (containersPod []) = "0/0".
Proof. repeat split. Qed.

Example test_FormatRestarts :
  FormatRestarts (containersPod [containerStatus false 0; containerStatus false 0])
  = "0" ∧
  FormatRestarts (containersPod [containerStatus false 2; containerStatus false 3;
                                 containerStatus false 1]) = "6".
Proof. repeat split. Qed.

Example test_GetNodeName :
  GetNodeName (runningPod "" "" "worker-1" "" []) = "worker-1" ∧
  GetNodeName (runningPod "" "" "" "" []) = "<none>".
Proof. repeat split. Qed.

Example test_FormatPodAge (L : Library) :
  FormatPodAge L (phasePod "Running" None) = "<unknown>".
Proof. reflexivity. Qed.

Example test_Validate :
  Forall (λ format,
            Validate {| configFlags_Namespace := None; allNamespaces := false;
                        labelSelector := ""; showIPsOnly := false;
                        namespace := ""; outputFormat := format;
                        noHeaders := false; showLabels := false |} = Ok tt)
         ["table"; "wide"; "json"; "yaml"; "name"; ""] ∧
  Validate {| configFlags_Namespace := None; allNamespaces := false;
              labelSelector := ""; showIPsOnly := false;
              namespace := ""; outputFormat := "invalid";
              noHeaders := false; showLabels := false |}
  = Err ErrUnsupportedFormat.
Proof. split; [repeat constructor|reflexivity]. Qed.

(** The default rendering of one running pod created two hours before the
    clock is read, with a duration printer that prints minutes. *)
Example test_default_table :
  let table := generateTable insertionLibrary
                 {| Items := [runningPod "default" "nginx-1" "worker-1"
                                "10.0.0.1" []] |}
                 false false false in
  col_Name <$> ColumnDefinitions table = ["NAME"; "IP"; "STATUS"; "AGE"] ∧
  Cells <$> Rows table = [["nginx-1"; "10.0.0.1"; "Running"; "120m"]].
Proof. split; vm_compute; reflexivity. Qed.

(** ** Go's string order is a strict total order *)

Lemma ascii_compare_lt_trans (a b c : ascii) :
  Ascii.compare a b = Lt → Ascii.compare b c = Lt → Ascii.compare a c = Lt.
Proof.
  unfold Ascii.compare. rewrite !N.compare_lt_iff. lia.
Qed.

Lemma ascii_compare_refl (a : ascii) : Ascii.compare a a = Eq.
Proof. unfold Ascii.compare. apply N.compare_refl. Qed.

Lemma string_compare_refl (s : string) : String.compare s s = Eq.
Proof.
  induction s as [|a s IH]; simpl; [done|].
  by rewrite ascii_compare_refl.
Qed.

Lemma string_compare_lt_trans (s1 s2 s3 : string) :
  String.compare s1 s2 = Lt → String.compare s2 s3 = Lt →
  String.compare s1 s3 = Lt.
Proof.
  revert s2 s3.
  induction s1 as [|a s1 IH]; intros [|b s2] [|c s3]; simpl; try done.
  destruct (Ascii.compare a b) eqn:Hab; try done;
    destruct (Ascii.compare b c) eqn:Hbc; try done; intros H1 H2.
  - apply Ascii.compare_eq_iff in Hab, Hbc. subst.
    rewrite ascii_compare_refl. eauto.
  - apply Ascii.compare_eq_iff in Hab. subst. by rewrite Hbc.
  - apply Ascii.compare_eq_iff in Hbc. subst. by rewrite Hab.
  - by rewrite (ascii_compare_lt_trans _ _ _ Hab Hbc).
Qed.

Lemma go_lt_irrefl (a : string) : go_lt a a = false.
Proof. unfold go_lt, String.ltb. by rewrite string_compare_refl. Qed.

Lemma go_lt_trans (a b c : string) :
  go_lt a b = true → go_lt b c = true → go_lt a c = true.
Proof.
  unfold go_lt, String.ltb.
  destruct (String.compare a b) eqn:Hab; try done.
  destruct (String.compare b c) eqn:Hbc; try done.
  by rewrite (string_compare_lt_trans _ _ _ Hab Hbc).
Qed.

Lemma go_lt_asym (a b : string) : go_lt a b = true → go_lt b a = false.
Proof.
  intros Hab. destruct (go_lt b a) eqn:Hba; [|done].
  pose proof (go_lt_trans _ _ _ Hab Hba) as H.
  by rewrite go_lt_irrefl in H.
Qed.

Lemma go_lt_total (a b : string) :
  go_lt a b = false → go_lt b a = false → a = b.
Proof.
  unfold go_lt, String.ltb.
  destruct (String.compare a b) eqn:Hab; try done.
  - intros _ _. by apply String.compare_eq_iff.
  - intros _. rewrite (String.compare_antisym b a), Hab. done.
Qed.

Lemma go_neq_true (a b : string) : go_neq a b = true ↔ a ≠ b.
Proof.
  unfold go_neq. rewrite negb_true_iff. apply String.eqb_neq.
Qed.

Lemma go_neq_false (a b : string) : go_neq a b = false ↔ a = b.
Proof.
  unfold go_neq. rewrite negb_false_iff. apply String.eqb_eq.
Qed.

(** ** The comparison of [sortPodIPsWithPods] is the lexicographic order *)

Lemma less_false_lex_le (a b : podIPWithPod) :
  less b a = false ↔ lex_le (key a) (key b).
Proof.
  unfold less, lex_le, key.
  destruct a as [pa ia], b as [pb ib]; simpl.
  destruct (go_neq (Namespace pb) (Namespace pa)) eqn:Hns.
  - apply go_neq_true in Hns. split.
    + intros Hlt. left.
      destruct (go_lt (Namespace pa) (Namespace pb)) eqn:H; [done|].
      destruct Hns. by apply go_lt_total.
    + intros [H|[H _]]; [by apply go_lt_asym|by subst].
  - apply go_neq_false in Hns. rewrite Hns.
    destruct (go_neq (Name pb) (Name pa)) eqn:Hn.
    + apply go_neq_true in Hn. split.
      * intros Hlt. right. split; [done|]. left.
        destruct (go_lt (Name pa) (Name pb)) eqn:H; [done|].
        destruct Hn. by apply go_lt_total.
      * intros [H|[_ [H|[H _]]]].
        -- by rewrite go_lt_irrefl in H.
        -- by apply go_lt_asym.
        -- by subst.
    + apply go_neq_false in Hn. rewrite Hn. split.
      * intros Hlt. right. split; [done|]. right. split; [done|].
        destruct (go_lt ia ib) eqn:H; [by left|right].
        by apply go_lt_total.
      * intros [H|[_ [H|[_ [H| ->]]]]].
        -- by rewrite go_lt_irrefl in H.
        -- by rewrite go_lt_irrefl in H.
        -- by apply go_lt_asym.
        -- apply go_lt_irrefl.
Qed.

#[global] Instance lex_le_trans : Transitive lex_le.
Proof.
  intros [[a1 a2] a3] [[b1 b2] b3] [[c1 c2] c3]; simpl.
  intros H1 H2.
  destruct H1 as [H1|[-> H1]], H2 as [H2|[-> H2]];
    eauto using go_lt_trans.
  right. split; [done|].
  destruct H1 as [H1|[-> H1]], H2 as [H2|[-> H2]];
    eauto using go_lt_trans.
  right. split; [done|].
  destruct H1 as [H1| ->], H2 as [H2| ->]; eauto using go_lt_trans.
Qed.

#[global] Instance lex_le_antisym : AntiSymm (=) lex_le.
Proof.
  assert (Hno : ∀ x y, go_lt x y = true → go_lt y x = true → False).
  { intros x y H1 H2. apply go_lt_asym in H1. congruence. }
  assert (Hirr : ∀ x, go_lt x x = true → False).
  { intros x H. rewrite go_lt_irrefl in H. done. }
  intros [[a1 a2] a3] [[b1 b2] b3]; simpl. intros H1 H2.
  destruct H1 as [H1|[E1 [H1|[E1' [H1|E1'']]]]];
    destruct H2 as [H2|[E2 [H2|[E2' [H2|E2'']]]]];
    subst; try done;
    solve [ exfalso; eapply Hno; eassumption
          | exfalso; eapply Hirr; eassumption ].
Qed.

Lemma lex_le_total (k1 k2 : string * string * string) :
  lex_le k1 k2 ∨ lex_le k2 k1.
Proof.
  assert (Htri : ∀ x y, go_lt x y = true ∨ x = y ∨ go_lt y x = true).
  { intros x y. destruct (go_lt x y) eqn:H1; [by left|].
    destruct (go_lt y x) eqn:H2; [by right; right|].
    right; left. by apply go_lt_total. }
  destruct k1 as [[a1 a2] a3], k2 as [[b1 b2] b3]; simpl.
  destruct (Htri a1 b1) as [?|[->|?]]; [tauto| |tauto].
  destruct (Htri a2 b2) as [?|[->|?]]; [tauto| |tauto].
  destruct (Htri a3 b3) as [?|[->|?]]; tauto.
Qed.

Lemma less_asym (a b : podIPWithPod) : less a b = true → less b a = false.
Proof.
  intros H. apply (less_false_lex_le a b).
  destruct (lex_le_total (key a) (key b)) as [Hab|Hba]; [exact Hab|].
  apply (less_false_lex_le b a) in Hba. congruence.
Qed.


#[global] Instance notAfter_less_trans : Transitive (notAfter less).
Proof.
  intros a b c. unfold notAfter.
  rewrite !less_false_lex_le. apply lex_le_trans.
Qed.

(** ** Insertion sort meets [sort.Slice]'s contract *)

Section InsertionSort.
Context {A : Type} (lt : A → A → bool).
Hypothesis lt_asym : ∀ a b, lt a b = true → lt b a = false.

#[local] Abbreviation R := (λ a b : A, lt a b = false).

Lemma siftLeft_perm (x : A) (l : list A) : siftLeft lt x l ≡ₚ x :: l.
Proof.
  induction l as [|y l IH]; simpl; [done|].
  destruct (lt x y); [|done].
  rewrite IH. apply Permutation_swap.
Qed.

Lemma insertionSort_perm (l : list A) : insertionSort lt l ≡ₚ l.
Proof.
  unfold insertionSort. rewrite reverse_Permutation.
  change l with ([] ++ l) at 2. generalize (@nil A) as acc.
  induction l as [|x l IH]; intros acc; simpl.
  - by rewrite app_nil_r.
  - rewrite IH, siftLeft_perm. apply Permutation_middle.
Qed.

Lemma siftLeft_HdRel (x y : A) (l : list A) :
  HdRel R y l → R y x → HdRel R y (siftLeft lt x l).
Proof.
  intros Hhd Hyx. destruct l as [|z l]; simpl.
  - by constructor.
  - destruct (lt x z); constructor; [by inversion Hhd|done].
Qed.

Lemma siftLeft_Sorted (x : A) (l : list A) :
  Sorted R l → Sorted R (siftLeft lt x l).
Proof.
  induction 1 as [|y l Hl IH Hhd]; simpl.
  - repeat constructor.
  - destruct (lt x y) eqn:Hxy.
    + constructor; [done|]. apply siftLeft_HdRel; [done|].
      by apply lt_asym.
    + repeat constructor; done.
Qed.

Lemma insertionSort_Sorted (l : list A) :
  Sorted (λ a b, lt b a = false) (insertionSort lt l).
Proof.
  unfold insertionSort.
  apply (Sorted_reverse R).
  assert (Hnil : Sorted R []) by constructor.
  revert Hnil. generalize (@nil A) as acc.
  induction l as [|x l IH]; intros acc Hacc; simpl; [done|].
  apply IH. by apply siftLeft_Sorted.
Qed.

End InsertionSort.

Lemma insertionLibrary_SortsSlice : SortsSlice insertionLibrary.
Proof.
  intros l. split.
  - apply insertionSort_perm.
  - apply (insertionSort_Sorted less less_asym).
Qed.

Lemma reversingLibrary_SortsSlice : SortsSlice reversingLibrary.
Proof.
  intros l. split.
  - simpl. rewrite insertionSort_perm. apply reverse_Permutation.
  - apply (insertionSort_Sorted less less_asym).
Qed.

(** ** What every admissible [sort.Slice] gives the sorter *)

Lemma StronglySorted_lookup {A} (R : relation A) (l : list A) (i j : nat) (a b : A) :
  StronglySorted R l → i < j → l !! i = Some a → l !! j = Some b → R a b.
Proof.
  intros Hl. revert i j.
  induction Hl as [|x l Hl IH Hall]; intros i j Hij Hi Hj; [done|].
  destruct j as [|j]; [lia|]. simpl in Hj.
  destruct i as [|i]; simpl in Hi.
  - injection Hi as <-. rewrite Forall_forall in Hall.
    apply Hall. by eapply list_elem_of_lookup_2.
  - eapply IH; [|done..]. lia.
Qed.

Lemma NoDup_fmap_inj_on {A B} (f : A → B) (l : list A) (x y : A) :
  NoDup (f <$> l) → x ∈ l → y ∈ l → f x = f y → x = y.
Proof.
  induction l as [|z l IH]; csimpl; [by rewrite elem_of_nil|].
  rewrite NoDup_cons, !elem_of_cons. intros [Hz Hl] [->|Hx] [->|Hy] Hf; auto.
  - destruct Hz. rewrite Hf. by apply list_elem_of_fmap_2.
  - destruct Hz. rewrite <- Hf. by apply list_elem_of_fmap_2.
Qed.

Lemma sorted_keys_unique (l1 l2 : list podIPWithPod) :
  Sorted (notAfter less) l1 → Sorted (notAfter less) l2 → l1 ≡ₚ l2 →
  key <$> l1 = key <$> l2.
Proof.
  intros H1 H2 HP.
  apply (Sorted_unique lex_le).
  - eapply Sorted_fmap; [|exact H1]. intros x y. apply less_false_lex_le.
  - eapply Sorted_fmap; [|exact H2]. intros x y. apply less_false_lex_le.
  - by apply fmap_Permutation.
Qed.

Lemma sorted_unique_distinct_keys (l1 l2 : list podIPWithPod) :
  NoDup (key <$> l1) →
  Sorted (notAfter less) l1 → Sorted (notAfter less) l2 → l1 ≡ₚ l2 →
  l1 = l2.
Proof.
  intros Hnd H1 H2 HP.
  apply (Sorted_unique_strong (notAfter less)); [|done..].
  intros x1 x2 Hx1 Hx2 H12 H21.
  apply (NoDup_fmap_inj_on key l1); [done|done|by rewrite HP|].
  apply (anti_symm lex_le); by apply less_false_lex_le.
Qed.

Section Sorter.
Context (L : Library) (HL : SortsSlice L).

Lemma sort_perm (l : list podIPWithPod) : sortPodIPsWithPods L l ≡ₚ l.
Proof. apply HL. Qed.

Lemma sort_Sorted (l : list podIPWithPod) :
  Sorted (notAfter less) (sortPodIPsWithPods L l).
Proof. apply HL. Qed.

Lemma sort_nil : sortPodIPsWithPods L [] = [].
Proof. apply Permutation_nil_r. apply sort_perm. Qed.

Lemma sort_ordered (l : list podIPWithPod) (i j : nat) (a b : podIPWithPod) :
  i < j →
  sortPodIPsWithPods L l !! i = Some a →
  sortPodIPsWithPods L l !! j = Some b →
  lex_le (key a) (key b).
Proof.
  intros Hij Hi Hj. apply less_false_lex_le.
  eapply (StronglySorted_lookup (notAfter less)); [|done..].
  apply Sorted_StronglySorted; [apply _|apply sort_Sorted].
Qed.

Lemma sort_fixes_sorted_distinct (l : list podIPWithPod) :
  Sorted (notAfter less) l → NoDup (key <$> l) → sortPodIPsWithPods L l = l.
Proof.
  intros Hs Hnd. symmetry.
  apply sorted_unique_distinct_keys; [done|done|apply sort_Sorted|].
  symmetry. apply sort_perm.
Qed.

End Sorter.

(** ** Go's algorithm leaves an ordered slice as it is *)

Section GoSortOrdered.
Context {A : Type} (lt : A → A → bool) (data : list A).
#[local] Open Scope nat_scope.
Hypothesis ordered : ∀ i j : nat, i ≤ j → Less lt data j i = false.

Lemma insertionStep_ordered (a j : nat) : insertionStep lt data a j = data.
Proof.
  destruct j as [|j]; simpl; [done|].
  rewrite (ordered j (S j)) by lia. by rewrite andb_false_r.
Qed.

Lemma insertionSort_func_ordered (a b : nat) :
  insertionSort_func lt data a b = data.
Proof.
  unfold insertionSort_func. generalize (seq (a + 1) (b - (a + 1))) as l.
  induction l as [|i l IH]; simpl; [done|].
  by rewrite insertionStep_ordered.
Qed.

Lemma skipOrdered_ordered (fuel i b : nat) :
  i ≤ b → b - i ≤ fuel → skipOrdered lt fuel data i b = b.
Proof.
  revert i. induction fuel as [|fuel IH]; intros i Hib Hfuel; simpl; [lia|].
  destruct (i <? b)%nat eqn:Hlt; simpl.
  - apply Nat.ltb_lt in Hlt. rewrite (ordered (i - 1) i) by lia. simpl.
    apply IH; lia.
  - apply Nat.ltb_ge in Hlt. lia.
Qed.

Lemma order2_ordered (x y swaps : nat) :
  x ≤ y → order2_func lt data x y swaps = (x, y, swaps).
Proof. intros Hxy. unfold order2_func. by rewrite (ordered x y Hxy). Qed.

Lemma median_ordered (x y z swaps : nat) :
  x ≤ y → y ≤ z → median_func lt data x y z swaps = (y, swaps).
Proof.
  intros Hxy Hyz. unfold median_func.
  by rewrite (order2_ordered x y), (order2_ordered y z), (order2_ordered x y).
Qed.

Lemma choosePivot_ordered (a b : nat) :
  ∃ j, choosePivot_func lt data a b = (j, increasingHint).
Proof.
  unfold choosePivot_func, medianAdjacent_func. cbv zeta.
  generalize ((b - a) / 4)%nat as q. intros q.
  destruct (8 <=? b - a)%nat; [destruct (50 <=? b - a)%nat|];
    rewrite ?median_ordered by lia; simpl; eauto.
Qed.

Lemma partialInsertionSortLoop_ordered (steps a b i : nat) :
  i ≤ b → partialInsertionSortLoop lt (S steps) data a b i = (data, true).
Proof.
  intros Hib. cbn [partialInsertionSortLoop]. cbv zeta.
  rewrite skipOrdered_ordered by lia. by rewrite Nat.eqb_refl.
Qed.

Lemma partialInsertionSort_ordered (a b : nat) :
  a + 1 ≤ b → partialInsertionSort_func lt data a b = (data, true).
Proof.
  intros Hab. unfold partialInsertionSort_func.
  by apply partialInsertionSortLoop_ordered.
Qed.

Lemma go_sort_Slice_ordered : go_sort_Slice lt data = Some data.
Proof.
  unfold go_sort_Slice. cbv zeta.
  generalize (length data) at 1 as fuel. intros fuel.
  cbn [pdqsort_func]. cbv zeta. rewrite Nat.sub_0_r.
  destruct (length data <=? 12)%nat eqn:Hshort.
  - by rewrite insertionSort_func_ordered.
  - apply Nat.leb_gt in Hshort.
    assert (Hlimit : (bits_Len (length data) =? 0)%nat = false).
    { destruct (length data); [lia|done]. }
    rewrite Hlimit. cbn [negb].
    destruct (choosePivot_ordered 0 (length data)) as [j ->].
    cbn [isDecreasing isIncreasing andb].
    by rewrite partialInsertionSort_ordered by lia.
Qed.

End GoSortOrdered.

(** ** Go's algorithm returns

    Every turn of [pdqsort_func]'s loop and every recursive call works on a
    strictly shorter range, so the count [sort.Slice] starts it with never
    runs out. *)

Section GoSortReturns.
Context {A : Type} (lt : A → A → bool).
#[local] Open Scope nat_scope.

Lemma skipLess_bounds (fuel : nat) (data : list A) (a i j : nat) :
  i ≤ skipLess lt fuel data a i j ∧ skipLess lt fuel data a i j ≤ i `max` (j + 1).
Proof.
  revert i. induction fuel as [|fuel IH]; intros i; simpl; [lia|].
  destruct (i <=? j) eqn:Hij; simpl; [|lia].
  apply Nat.leb_le in Hij.
  destruct (Less lt data i a); [|lia].
  specialize (IH (S i)). lia.
Qed.

Lemma skipNotLess_bounds (fuel : nat) (data : list A) (a lo i j : nat) :
  lo + 1 ≤ i → lo ≤ j →
  lo ≤ skipNotLess lt fuel data a i j ∧ skipNotLess lt fuel data a i j ≤ j.
Proof.
  revert j. induction fuel as [|fuel IH]; intros j Hi Hj; simpl; [lia|].
  destruct (i <=? j) eqn:Hij; simpl; [|lia].
  apply Nat.leb_le in Hij.
  destruct (Less lt data j a); simpl; [lia|].
  specialize (IH (j - 1)). lia.
Qed.

Lemma partitionLoop_bounds (fuel : nat) (data : list A) (a i j b : nat) :
  a + 1 ≤ i → a ≤ j → j ≤ b - 1 →
  a ≤ snd (partitionLoop lt fuel data a i j) ∧
  snd (partitionLoop lt fuel data a i j) ≤ b - 1.
Proof.
  revert data i j. induction fuel as [|fuel IH]; intros data i j Hi Hj Hb;
    simpl; [lia|].
  pose proof (skipLess_bounds (S j - i) data a i j) as Hi'.
  set (i' := skipLess lt (S j - i) data a i j) in *.
  pose proof (skipNotLess_bounds (S j - i') data a a i' j) as Hj'.
  set (j' := skipNotLess lt (S j - i') data a i' j) in *.
  destruct (j' <? i') eqn:Hlt; simpl; [lia|].
  apply Nat.ltb_ge in Hlt. apply IH; lia.
Qed.

Lemma partition_bounds (data : list A) (a b pivot : nat) :
  a + 1 ≤ b →
  a ≤ snd (fst (partition_func lt data a b pivot)) ∧
  snd (fst (partition_func lt data a b pivot)) ≤ b - 1.
Proof.
  intros Hab. unfold partition_func. cbv zeta.
  set (d := Swap data a pivot).
  pose proof (skipLess_bounds (S (b - 1) - (a + 1)) d a (a + 1) (b - 1)) as Hi'.
  set (i' := skipLess lt (S (b - 1) - (a + 1)) d a (a + 1) (b - 1)) in *.
  pose proof (skipNotLess_bounds (S (b - 1) - i') d a a i' (b - 1)) as Hj'.
  set (j' := skipNotLess lt (S (b - 1) - i') d a i' (b - 1)) in *.
  destruct (j' <? i') eqn:Hlt; simpl; [lia|].
  apply Nat.ltb_ge in Hlt.
  pose proof (partitionLoop_bounds (b - a) (Swap d i' j') a (S i') (j' - 1) b)
    as Hloop.
  destruct (partitionLoop lt (b - a) (Swap d i' j') a (S i') (j' - 1))
    as [d' j''].
  simpl in *. lia.
Qed.

Lemma skipNotGreater_bounds (fuel : nat) (data : list A) (a i j : nat) :
  i ≤ skipNotGreater lt fuel data a i j ∧
  skipNotGreater lt fuel data a i j ≤ i `max` (j + 1).
Proof.
  revert i. induction fuel as [|fuel IH]; intros i; simpl; [lia|].
  destruct (i <=? j) eqn:Hij; simpl; [|lia].
  apply Nat.leb_le in Hij.
  destruct (Less lt data a i); simpl; [lia|].
  specialize (IH (S i)). lia.
Qed.

Lemma skipGreater_le (fuel : nat) (data : list A) (a i j : nat) :
  skipGreater lt fuel data a i j ≤ j.
Proof.
  revert j. induction fuel as [|fuel IH]; intros j; simpl; [lia|].
  destruct ((i <=? j) && Less lt data a j); [|lia].
  specialize (IH (j - 1)). lia.
Qed.

Lemma partitionEqualLoop_bounds (fuel : nat) (data : list A) (a i j b : nat) :
  1 ≤ b → i ≤ b → j ≤ b - 1 →
  i ≤ snd (partitionEqualLoop lt fuel data a i j) ∧
  snd (partitionEqualLoop lt fuel data a i j) ≤ b.
Proof.
  intros Hb. revert data i j.
  induction fuel as [|fuel IH]; intros data i j Hi Hj; simpl; [lia|].
  pose proof (skipNotGreater_bounds (S j - i) data a i j) as Hi'.
  set (i' := skipNotGreater lt (S j - i) data a i j) in *.
  pose proof (skipGreater_le (S j - i') data a i' j) as Hj'.
  set (j' := skipGreater lt (S j - i') data a i' j) in *.
  destruct (j' <? i') eqn:Hlt; simpl; [lia|].
  apply Nat.ltb_ge in Hlt.
  specialize (IH (Swap data i' j') (S i') (j' - 1)). lia.
Qed.

Lemma partitionEqual_bounds (data : list A) (a b pivot : nat) :
  a + 1 ≤ b →
  a + 1 ≤ snd (partitionEqual_func lt data a b pivot) ∧
  snd (partitionEqual_func lt data a b pivot) ≤ b.
Proof.
  intros Hab. unfold partitionEqual_func.
  apply partitionEqualLoop_bounds; lia.
Qed.

Lemma pdqsort_func_returns (fuel : nat) (data : list A) (a b limit : nat)
    (wasBalanced wasPartitioned : bool) :
  b - a < fuel →
  is_Some (pdqsort_func lt fuel data a b limit wasBalanced wasPartitioned).
Proof.
  revert data a b limit wasBalanced wasPartitioned.
  induction fuel as [|fuel IH];
    intros data a b limit wasBalanced wasPartitioned Hfuel; [lia|].
  cbn [pdqsort_func]. cbv zeta.
  destruct (b - a <=? 12) eqn:Hshort; [done|].
  apply Nat.leb_gt in Hshort.
  destruct (limit =? 0); [done|].
  destruct (if negb wasBalanced
            then (breakPatterns_func data a b, limit - 1)
            else (data, limit)) as [data1 limit1].
  destruct (choosePivot_func lt data1 a b) as [pivot hint].
  destruct (if isDecreasing hint
            then (reverseRange_func data1 a b, b - 1 - (pivot - a), increasingHint)
            else (data1, pivot, hint)) as [[data2 pivot2] hint2].
  destruct (if wasBalanced && wasPartitioned && isIncreasing hint2
            then partialInsertionSort_func lt data2 a b
            else (data2, false)) as [data3 sorted].
  destruct sorted; [done|].
  destruct ((0 <? a) && negb (Less lt data3 (a - 1) pivot2)).
  - pose proof (partitionEqual_bounds data3 a b pivot2) as Hmid.
    destruct (partitionEqual_func lt data3 a b pivot2) as [data4 mid].
    simpl in Hmid. apply IH. lia.
  - pose proof (partition_bounds data3 a b pivot2) as Hmid.
    destruct (partition_func lt data3 a b pivot2) as [[data4 mid] already].
    simpl in Hmid.
    destruct (mid - a <? b - mid).
    + destruct (IH data4 a mid limit1 true true) as [data5 ->]; [lia|].
      simpl. apply IH. lia.
    + destruct (IH data4 (mid + 1) b limit1 true true) as [data5 ->]; [lia|].
      simpl. apply IH. lia.
Qed.

Lemma go_sort_Slice_returns (x : list A) : is_Some (go_sort_Slice lt x).
Proof. unfold go_sort_Slice. apply pdqsort_func_returns. lia. Qed.

End GoSortReturns.

(** ** Go's algorithm rearranges the slice

    The slice is only ever changed by [Swap]. *)

Section GoSortPermutes.
Context {A : Type} (lt : A → A → bool).
#[local] Open Scope nat_scope.

Lemma insert_head_perm (data : list A) (j : nat) (x y : A) :
  data !! j = Some y → y :: <[j := x]> data ≡ₚ x :: data.
Proof.
  revert j. induction data as [|d data IH]; intros [|j] Hj; simpl in *;
    try done.
  - injection Hj as ->. apply Permutation_swap.
  - rewrite Permutation_swap, (IH j Hj). apply Permutation_swap.
Qed.

Lemma Swap_perm (data : list A) (i j : nat) : Swap data i j ≡ₚ data.
Proof.
  unfold Swap.
  destruct (data !! i) as [x|] eqn:Hi; [|done].
  destruct (data !! j) as [y|] eqn:Hj; [|done].
  revert i j Hi Hj. induction data as [|d data IH]; intros [|i] [|j] Hi Hj;
    simpl in *; try done.
  - injection Hi as ->. by injection Hj as ->.
  - injection Hi as ->. by apply insert_head_perm.
  - injection Hj as ->. by apply insert_head_perm.
  - by rewrite (IH i j).
Qed.

Lemma foldl_perm {B} (f : list A → B → list A) (l : list B) (data : list A) :
  (∀ d b, f d b ≡ₚ d) → foldl f data l ≡ₚ data.
Proof.
  intros Hf. revert data. induction l as [|b l IH]; intros data; simpl; [done|].
  by rewrite IH.
Qed.

Lemma insertionStep_perm (data : list A) (a j : nat) :
  insertionStep lt data a j ≡ₚ data.
Proof.
  revert data. induction j as [|j IH]; intros data; simpl; [done|].
  destruct (_ && _); [|done]. by rewrite IH, Swap_perm.
Qed.

Lemma insertionSort_func_perm (data : list A) (a b : nat) :
  insertionSort_func lt data a b ≡ₚ data.
Proof.
  unfold insertionSort_func. apply foldl_perm.
  intros d i. apply insertionStep_perm.
Qed.

Lemma siftDown_func_perm (fuel : nat) (data : list A) (root hi first : nat) :
  siftDown_func lt fuel data root hi first ≡ₚ data.
Proof.
  revert data root. induction fuel as [|fuel IH]; intros data root; simpl;
    [done|].
  destruct (hi <=? _); [done|].
  destruct (negb _); [done|]. by rewrite IH, Swap_perm.
Qed.

Lemma heapSort_func_perm (data : list A) (a b : nat) :
  heapSort_func lt data a b ≡ₚ data.
Proof.
  unfold heapSort_func. cbv zeta.
  rewrite foldl_perm.
  - apply foldl_perm. intros d i. apply siftDown_func_perm.
  - intros d i. by rewrite siftDown_func_perm, Swap_perm.
Qed.

Lemma partitionLoop_perm (fuel : nat) (data : list A) (a i j : nat) :
  fst (partitionLoop lt fuel data a i j) ≡ₚ data.
Proof.
  revert data i j. induction fuel as [|fuel IH]; intros data i j; simpl;
    [done|].
  destruct (_ <? _); [done|]. by rewrite IH, Swap_perm.
Qed.

Lemma partition_func_perm (data : list A) (a b pivot : nat) :
  fst (fst (partition_func lt data a b pivot)) ≡ₚ data.
Proof.
  unfold partition_func. cbv zeta.
  destruct (_ <? _); simpl; [by rewrite !Swap_perm|].
  match goal with
  | |- context [partitionLoop lt ?f ?d ?x ?y ?z] =>
      pose proof (partitionLoop_perm f d x y z) as Hloop;
      destruct (partitionLoop lt f d x y z) as [d' j']
  end.
  simpl in *. by rewrite Swap_perm, Hloop, !Swap_perm.
Qed.

Lemma partitionEqualLoop_perm (fuel : nat) (data : list A) (a i j : nat) :
  fst (partitionEqualLoop lt fuel data a i j) ≡ₚ data.
Proof.
  revert data i j. induction fuel as [|fuel IH]; intros data i j; simpl;
    [done|].
  destruct (_ <? _); [done|]. by rewrite IH, Swap_perm.
Qed.

Lemma partitionEqual_func_perm (data : list A) (a b pivot : nat) :
  fst (partitionEqual_func lt data a b pivot) ≡ₚ data.
Proof.
  unfold partitionEqual_func. by rewrite partitionEqualLoop_perm, Swap_perm.
Qed.

Lemma shiftLeft_perm (data : list A) (j : nat) : shiftLeft lt data j ≡ₚ data.
Proof.
  revert data. induction j as [|j IH]; intros data; simpl; [done|].
  destruct (Less _ _ _ _); [|done]. by rewrite IH, Swap_perm.
Qed.

Lemma shiftRight_perm (fuel : nat) (data : list A) (j b : nat) :
  shiftRight lt fuel data j b ≡ₚ data.
Proof.
  revert data j. induction fuel as [|fuel IH]; intros data j; simpl; [done|].
  destruct (_ && _); [|done]. by rewrite IH, Swap_perm.
Qed.

Lemma partialInsertionSortLoop_perm (steps : nat) (data : list A) (a b i : nat) :
  fst (partialInsertionSortLoop lt steps data a b i) ≡ₚ data.
Proof.
  revert data i. induction steps as [|steps IH]; intros data i;
    cbn [partialInsertionSortLoop]; cbv zeta; [done|].
  destruct (_ =? b); [done|]. destruct (_ <? 50); [done|].
  rewrite IH.
  destruct (2 <=? b - _); destruct (2 <=? _ - a);
    by rewrite ?shiftRight_perm, ?shiftLeft_perm, Swap_perm.
Qed.

Lemma breakPatterns_func_perm (data : list A) (a b : nat) :
  breakPatterns_func data a b ≡ₚ data.
Proof.
  unfold breakPatterns_func. cbv zeta.
  destruct (8 <=? b - a); [|done].
  generalize (Z.of_nat (b - a)) as random. generalize (seq 0 3) as l.
  intros l. revert data. induction l as [|i l IH]; intros data random; simpl;
    [done|].
  by rewrite IH, Swap_perm.
Qed.

Lemma reverseRangeLoop_perm (fuel : nat) (data : list A) (i j : nat) :
  reverseRangeLoop fuel data i j ≡ₚ data.
Proof.
  revert data i j. induction fuel as [|fuel IH]; intros data i j; simpl;
    [done|].
  destruct (i <? j); [|done]. by rewrite IH, Swap_perm.
Qed.

Lemma pdqsort_func_perm (fuel : nat) (data out : list A) (a b limit : nat)
    (wasBalanced wasPartitioned : bool) :
  pdqsort_func lt fuel data a b limit wasBalanced wasPartitioned = Some out →
  out ≡ₚ data.
Proof.
  revert data out a b limit wasBalanced wasPartitioned.
  induction fuel as [|fuel IH];
    intros data out a b limit wasBalanced wasPartitioned; [done|].
  cbn [pdqsort_func]. cbv zeta.
  destruct (b - a <=? 12).
  { intros [= <-]. apply insertionSort_func_perm. }
  destruct (limit =? 0).
  { intros [= <-]. apply heapSort_func_perm. }
  assert (H1 : fst (if negb wasBalanced
                    then (breakPatterns_func data a b, limit - 1)
                    else (data, limit)) ≡ₚ data).
  { destruct (negb wasBalanced); simpl; [apply breakPatterns_func_perm|done]. }
  destruct (if negb wasBalanced
            then (breakPatterns_func data a b, limit - 1)
            else (data, limit)) as [data1 limit1].
  simpl in H1.
  destruct (choosePivot_func lt data1 a b) as [pivot hint].
  assert (H2 : fst (fst (if isDecreasing hint
                         then (reverseRange_func data1 a b,
                               b - 1 - (pivot - a), increasingHint)
                         else (data1, pivot, hint))) ≡ₚ data1).
  { destruct (isDecreasing hint); simpl; [apply reverseRangeLoop_perm|done]. }
  destruct (if isDecreasing hint
            then (reverseRange_func data1 a b, b - 1 - (pivot - a), increasingHint)
            else (data1, pivot, hint)) as [[data2 pivot2] hint2].
  simpl in H2.
  assert (H3 : fst (if wasBalanced && wasPartitioned && isIncreasing hint2
                    then partialInsertionSort_func lt data2 a b
                    else (data2, false)) ≡ₚ data2).
  { destruct (_ && _); simpl; [apply partialInsertionSortLoop_perm|done]. }
  destruct (if wasBalanced && wasPartitioned && isIncreasing hint2
            then partialInsertionSort_func lt data2 a b
            else (data2, false)) as [data3 sorted].
  simpl in H3.
  assert (H123 : data3 ≡ₚ data) by (by rewrite H3, H2, H1).
  destruct sorted.
  { intros [= <-]. done. }
  destruct ((0 <? a) && negb (Less lt data3 (a - 1) pivot2)).
  - pose proof (partitionEqual_func_perm data3 a b pivot2) as H4.
    destruct (partitionEqual_func lt data3 a b pivot2) as [data4 mid].
    simpl in H4. intros Hout. apply IH in Hout. by rewrite Hout, H4.
  - pose proof (partition_func_perm data3 a b pivot2) as H4.
    destruct (partition_func lt data3 a b pivot2) as [[data4 mid] already].
    simpl in H4.
    destruct (mid - a <? b - mid).
    + destruct (pdqsort_func lt fuel data4 a mid limit1 true true)
        as [data5|] eqn:H5; [|done].
      simpl. intros Hout. apply IH in Hout, H5. by rewrite Hout, H5, H4.
    + destruct (pdqsort_func lt fuel data4 (mid + 1) b limit1 true true)
        as [data5|] eqn:H5; [|done].
      simpl. intros Hout. apply IH in Hout, H5. by rewrite Hout, H5, H4.
Qed.

Lemma go_sort_Slice_perm (x out : list A) :
  go_sort_Slice lt x = Some out → out ≡ₚ x.
Proof. apply pdqsort_func_perm. Qed.

End GoSortPermutes.

Lemma less_irrefl (a : podIPWithPod) : less a a = false.
Proof.
  destruct (less a a) eqn:H; [|done]. pose proof (less_asym a a H). congruence.
Qed.

Lemma Sorted_Less (l : list podIPWithPod) :
  Sorted (notAfter less) l → ∀ i j : nat, (i ≤ j)%nat → Less less l j i = false.
Proof.
  intros Hs i j Hij. unfold Less.
  destruct (l !! j) as [y|] eqn:Hj; [|done].
  destruct (l !! i) as [x|] eqn:Hi; [|done].
  destruct (decide (i = j)) as [->|Hne].
  - rewrite Hj in Hi. injection Hi as ->. apply less_irrefl.
  - apply (StronglySorted_lookup (notAfter less) l i j x y); [|lia|done..].
    apply Sorted_StronglySorted; [apply _|done].
Qed.

(** ** C2: the sorter *)

(** C2, as stated, fails: [sort.Slice] does not keep pairs with equal keys
    in order. Go's algorithm on thirteen pairs, among them the pair of
    [pod-05] on [node-a] before the pair of [pod-05] on [node-b], both with
    the key (default, pod-05, 10.0.1.5): the output has the pair on
    [node-b] first. And nothing in [sort.Slice]'s documented behaviour keeps
    the order on shorter lists: a sort that orders every slice and swaps
    two pairs with one key. *)
Lemma sorter_stability_fails :
  (go_sort_Slice less thirteen
   = Some (sortPodIPsWithPods goLibrary thirteen) ∧
   filter (λ a, key a = ("default", "pod-05", "10.0.1.5")) thirteen
   = [numbered 5 "node-a"; numbered 5 "node-b"] ∧
   filter (λ a, key a = ("default", "pod-05", "10.0.1.5"))
          (sortPodIPsWithPods goLibrary thirteen)
   = [numbered 5 "node-b"; numbered 5 "node-a"] ∧
   ¬ stable_on thirteen (sortPodIPsWithPods goLibrary thirteen)) ∧
  (∃ L, SortsSlice L ∧
        ¬ stable_on [twinA; twinB] (sortPodIPsWithPods L [twinA; twinB])).
Proof.
  assert (Hin : filter (λ a, key a = ("default", "pod-05", "10.0.1.5")) thirteen
                = [numbered 5 "node-a"; numbered 5 "node-b"])
    by (vm_compute; reflexivity).
  assert (Hout : filter (λ a, key a = ("default", "pod-05", "10.0.1.5"))
                        (sortPodIPsWithPods goLibrary thirteen)
                 = [numbered 5 "node-b"; numbered 5 "node-a"])
    by (vm_compute; reflexivity).
  split; [split_and!|].
  - vm_compute. reflexivity.
  - exact Hin.
  - exact Hout.
  - intros Hst. specialize (Hst ("default", "pod-05", "10.0.1.5")).
    rewrite Hin, Hout in Hst. vm_compute in Hst. discriminate Hst.
  - exists reversingLibrary. split; [apply reversingLibrary_SortsSlice|].
    intros Hst. specialize (Hst (key twinA)).
    vm_compute in Hst. discriminate Hst.
Qed.

(** C2, amended: the sorter is a total ordering that is not stable. For
    every [sort.Slice] that behaves as documented, the sorter's output is a
    rearrangement of its input in which any two pairs stand in the
    lexicographic order of (namespace, name, ip); sorting twice yields the
    same sequence of keys as sorting once, and when the keys are pairwise
    distinct sorting twice equals sorting once. Go's algorithm returns a
    rearrangement of every input, and leaves an already ordered list
    unchanged. *)
Theorem sorter_total_order (L : Library) (HL : SortsSlice L)
    (l : list podIPWithPod) :
  let s := sortPodIPsWithPods L l in
  s ≡ₚ l ∧
  (∀ i j a b, i < j → s !! i = Some a → s !! j = Some b →
              lex_le (key a) (key b)) ∧
  key <$> sortPodIPsWithPods L s = key <$> s ∧
  (NoDup (key <$> l) → sortPodIPsWithPods L s = s) ∧
  (∃ out, go_sort_Slice less l = Some out ∧ out ≡ₚ l) ∧
  (Sorted (notAfter less) l →
     go_sort_Slice less l = Some l ∧ sortPodIPsWithPods goLibrary l = l).
Proof.
  intros s. subst s. split; [by apply sort_perm|].
  split; [intros i j a b; by apply sort_ordered|].
  split; [|split; [|split]].
  - apply sorted_keys_unique; [by apply sort_Sorted..|by apply sort_perm].
  - intros Hnd.
    apply sort_fixes_sorted_distinct; [done|by apply sort_Sorted|].
    by rewrite (sort_perm L HL l).
  - destruct (go_sort_Slice_returns less l) as [out Hout].
    exists out. split; [done|]. by eapply go_sort_Slice_perm.
  - intros Hs.
    assert (Hgo : go_sort_Slice less l = Some l)
      by (apply go_sort_Slice_ordered; by apply Sorted_Less).
    split; [exact Hgo|].
    unfold sortPodIPsWithPods. simpl. by rewrite Hgo.
Qed.

Lemma sorter_total_order_witness :
  let l := [twinB; {| pod := pod twinA; ip := "10.0.0.0" |}] in
  let s := sortPodIPsWithPods insertionLibrary l in
  s ≡ₚ l ∧
  (∀ i j a b, i < j → s !! i = Some a → s !! j = Some b →
              lex_le (key a) (key b)) ∧
  key <$> sortPodIPsWithPods insertionLibrary s = key <$> s ∧
  (NoDup (key <$> l) → sortPodIPsWithPods insertionLibrary s = s) ∧
  (∃ out, go_sort_Slice less l = Some out ∧ out ≡ₚ l) ∧
  (Sorted (notAfter less) l →
     go_sort_Slice less l = Some l ∧ sortPodIPsWithPods goLibrary l = l).
Proof.
  exact (sorter_total_order insertionLibrary insertionLibrary_SortsSlice
           [twinB; {| pod := pod twinA; ip := "10.0.0.0" |}]).
Defined.

(** ** The extractor's loops *)

Lemma tracks_nil : tracks [] ∅.
Proof.
  intros x. unfold seen. rewrite lookup_empty. simpl.
  rewrite elem_of_nil. naive_solver.
Qed.

Lemma tracks_snoc (acc : list podIPWithPod) (u : gmap string bool)
    (p : Pod) (x : string) :
  tracks acc u → tracks (acc ++ [{| pod := p; ip := x |}]) (<[x := true]> u).
Proof.
  intros Ht y. unfold seen. rewrite fmap_app, elem_of_app. simpl.
  rewrite list_elem_of_singleton.
  destruct (decide (x = y)) as [->|Hne].
  - rewrite lookup_insert_eq. naive_solver.
  - rewrite lookup_insert_ne by done. fold (seen u y). rewrite (Ht y).
    intuition congruence.
Qed.

Lemma extractSecondary_spec (p : Pod) (ips : list PodIPEntry)
    (acc : list podIPWithPod) (u : gmap string bool) :
  tracks acc u →
  ∃ b u',
    extractSecondary p ips (acc, u) = (acc ++ b, u') ∧
    tracks (acc ++ b) u' ∧
    (∀ a, a ∈ b → pod a = p ∧ ip a ≠ "" ∧ ip a ∉ ip <$> acc) ∧
    (ip <$> b) `sublist_of` (IP <$> ips) ∧
    NoDup (ip <$> b) ∧
    (∀ e, e ∈ ips → IP e ≠ "" → IP e ∈ ip <$> (acc ++ b)).
Proof.
  revert acc u. induction ips as [|e rest IH]; intros acc u Ht; simpl.
  - exists [], u. rewrite app_nil_r. split_and!; try done.
    + intros a Ha. by apply elem_of_nil in Ha.
    + constructor.
    + intros e He. by apply elem_of_nil in He.
  - destruct (go_neq (IP e) "" && negb (seen u (IP e))) eqn:Hc.
    + apply andb_true_iff in Hc as [Hne Hs].
      apply go_neq_true in Hne. apply negb_true_iff in Hs.
      assert (Hfresh : IP e ∉ ip <$> acc).
      { intros Hin. apply Ht in Hin. congruence. }
      destruct (IH _ _ (tracks_snoc acc u p (IP e) Ht))
        as (b & u' & Heq & Ht' & Hb & Hsub & Hnd & Hall).
      exists ({| pod := p; ip := IP e |} :: b), u'.
      rewrite Heq, <- !(assoc_L (++)). simpl.
      rewrite <- !(assoc_L (++)) in Ht', Hall. simpl in Ht', Hall.
      assert (Hnotin : IP e ∉ ip <$> b).
      { intros Hin. apply list_elem_of_fmap in Hin as (a & Ha & Hab).
        destruct (Hb a Hab) as (_ & _ & Hn). apply Hn.
        rewrite fmap_app, elem_of_app. right. simpl.
        rewrite list_elem_of_singleton. done. }
      split_and!; try done.
      * intros a [->|Ha]%elem_of_cons; [done|].
        destruct (Hb a Ha) as (? & ? & Hn). split_and!; try done.
        intros Hin. apply Hn. rewrite fmap_app, elem_of_app. by left.
      * by apply sublist_skip.
      * simpl. by apply NoDup_cons.
      * intros e' [->|He']%elem_of_cons Hne'; [|by apply Hall].
        rewrite fmap_app, elem_of_app. right. simpl. apply elem_of_cons. by left.
    + destruct (IH _ _ Ht) as (b & u' & Heq & Ht' & Hb & Hsub & Hnd & Hall).
      exists b, u'. split_and!; try done.
      * by apply sublist_cons.
      * intros e' [->|He']%elem_of_cons Hne'; [|by apply Hall].
        rewrite fmap_app, elem_of_app. left. apply Ht.
        apply andb_false_iff in Hc as [Hc|Hc].
        -- apply go_neq_false in Hc. done.
        -- by apply negb_false_iff in Hc.
Qed.

Lemma extractPod_spec (p : Pod) (acc : list podIPWithPod) (u : gmap string bool) :
  tracks acc u →
  ∃ b u',
    extractPod p (acc, u) = (acc ++ b, u') ∧
    tracks (acc ++ b) u' ∧
    blockOf p b ∧
    (∀ x, x ∈ statusIPs p → x ≠ "" → x ∈ ip <$> (acc ++ b)).
Proof.
  intros Ht. unfold extractPod, blockOf, statusIPs.
  destruct (go_neq (PodIP (Status p)) "") eqn:Hp.
  - apply go_neq_true in Hp.
    destruct (extractSecondary_spec p (PodIPs (Status p)) _ _
                (tracks_snoc acc u p (PodIP (Status p)) Ht))
      as (b & u' & Heq & Ht' & Hb & Hsub & Hnd & Hall).
    exists ({| pod := p; ip := PodIP (Status p) |} :: b), u'.
    rewrite Heq, <- !(assoc_L (++)). simpl.
    rewrite <- !(assoc_L (++)) in Ht', Hall. simpl in Ht', Hall.
    split_and!; try done.
    + intros a [->|Ha]%elem_of_cons; [done|].
      destruct (Hb a Ha) as (? & ? & _). done.
    + by apply sublist_skip.
    + apply NoDup_cons. split; [|done].
      intros Hin. apply list_elem_of_fmap in Hin as (a & Ha & Hab).
      destruct (Hb a Hab) as (_ & _ & Hn). apply Hn.
      rewrite fmap_app, elem_of_app. right. simpl.
      rewrite list_elem_of_singleton. done.
    + intros x [->|Hx]%elem_of_cons Hne.
      * rewrite fmap_app, elem_of_app. right. simpl. apply elem_of_cons. by left.
      * apply list_elem_of_fmap in Hx as (e & -> & He). by apply Hall.
  - apply go_neq_false in Hp.
    destruct (extractSecondary_spec p (PodIPs (Status p)) _ _ Ht)
      as (b & u' & Heq & Ht' & Hb & Hsub & Hnd & Hall).
    exists b, u'. split_and!; try done.
    + intros a Ha. destruct (Hb a Ha) as (? & ? & _). done.
    + by apply sublist_cons.
    + intros x [->|Hx]%elem_of_cons Hne; [done|].
      apply list_elem_of_fmap in Hx as (e & -> & He). by apply Hall.
Qed.

Lemma extractLoop_spec (items : list Pod) (acc : list podIPWithPod)
    (u : gmap string bool) :
  tracks acc u →
  ∃ blocks u',
    extractLoop items (acc, u) = (acc ++ concat blocks, u') ∧
    Forall2 blockOf items blocks ∧
    (∀ p x, p ∈ items → x ∈ statusIPs p → x ≠ "" →
            x ∈ ip <$> (acc ++ concat blocks)).
Proof.
  revert acc u. induction items as [|p rest IH]; intros acc u Ht; cbn [extractLoop].
  - exists [], u. simpl. rewrite app_nil_r. split_and!; [done|constructor|].
    intros p x Hp. by apply elem_of_nil in Hp.
  - destruct (extractPod_spec p acc u Ht) as (b & u1 & Heq & Ht1 & Hb & Hall1).
    rewrite Heq.
    destruct (IH _ _ Ht1) as (blocks & u' & Heq' & HF & Hall).
    exists (b :: blocks), u'. simpl. rewrite (assoc_L (++)).
    split_and!; [done|by constructor|].
    intros q x [->|Hq]%elem_of_cons Hx Hne; [|by eapply Hall].
    rewrite fmap_app, elem_of_app. left. by apply Hall1.
Qed.

(** The extractor's output is the concatenation of one block per pod. *)
Lemma extract_blocks (pods : PodList) :
  ∃ blocks,
    extractPodIPsWithPods pods = concat blocks ∧
    Forall2 blockOf (Items pods) blocks ∧
    (∀ p x, p ∈ Items pods → x ∈ statusIPs p → x ≠ "" →
            x ∈ ip <$> extractPodIPsWithPods pods).
Proof.
  unfold extractPodIPsWithPods.
  destruct (extractLoop_spec (Items pods) [] ∅ tracks_nil)
    as (blocks & u' & Heq & HF & Hall).
  exists blocks. rewrite Heq. simpl. done.
Qed.

(** ** C8: the extractor's contract *)





(** ** C1: uniqueness of IPs is scoped to the whole pass for secondary IPs *)

(** C1 at two host-network pods of one dual-stack node: both pods get a pair
    for the shared primary address, but the second pod's secondary address
    is dropped because the first pod has already recorded it. *)
Theorem extractor_drops_shared_secondary :
  extractPodIPsWithPods {| Items := [hostNetA; hostNetB] |}
  = [{| pod := hostNetA; ip := "10.0.0.1" |};
     {| pod := hostNetA; ip := "fd00::1" |};
     {| pod := hostNetB; ip := "10.0.0.1" |}] ∧
  "fd00::1" ∈ statusIPs hostNetB ∧
  {| pod := hostNetB; ip := "fd00::1" |}
    ∉ extractPodIPsWithPods {| Items := [hostNetA; hostNetB] |}.
Proof.
  assert (Hrun : extractPodIPsWithPods {| Items := [hostNetA; hostNetB] |}
                 = [{| pod := hostNetA; ip := "10.0.0.1" |};
                    {| pod := hostNetA; ip := "fd00::1" |};
                    {| pod := hostNetB; ip := "10.0.0.1" |}])
    by (vm_compute; reflexivity).
  split; [exact Hrun|]. split.
  - unfold statusIPs. simpl. set_solver.
  - rewrite Hrun. rewrite !elem_of_cons, elem_of_nil.
    intros [H|[H|[H|[]]]]; discriminate H.
Qed.

(** ** The command: from the command line to [Run] *)

Lemma string_app_nil_r (s : string) : s +:+ "" = s.
Proof.
  induction s as [|c s IH]; [done|].
  change (String c (s +:+ "") = String c s). by f_equal.
Qed.

Lemma string_app_assoc (s1 s2 s3 : string) :
  (s1 +:+ s2) +:+ s3 = s1 +:+ (s2 +:+ s3).
Proof.
  induction s1 as [|c s1 IH]; [done|].
  change (String c ((s1 +:+ s2) +:+ s3) = String c (s1 +:+ (s2 +:+ s3))).
  by f_equal.
Qed.

Lemma GetString_namespace (a : Args) :
  GetString (snd (NewCmdIPs a)) "namespace" = Ok (arg_namespace a).
Proof.
  unfold GetString, NewCmdIPs. simpl.
  rewrite !lookup_insert_ne by done. by rewrite lookup_insert_eq.
Qed.

Lemma Complete_NewCmdIPs (a : Args) :
  Complete (fst (NewCmdIPs a)) (snd (NewCmdIPs a)) = Ok (completed a).
Proof.
  unfold Complete. rewrite GetString_namespace.
  unfold completed, targetNamespace, set_namespace, go_neq. simpl.
  destruct (arg_all_namespaces a); simpl; [done|].
  destruct (String.eqb (arg_namespace a) "") eqn:Hns; simpl; [done|].
  apply String.eqb_neq in Hns. done.
Qed.

Lemma Validate_valid (o : IPsOptions) :
  outputFormat o ∈ validFormats ↔ Validate o = Ok tt.
Proof.
  unfold Validate, validFormats, tableFormat, wideFormat, jsonFormat,
    yamlFormat, nameFormat.
  rewrite !elem_of_cons, elem_of_nil. split.
  - intros [->|[->|[->|[->|[->|[->|[]]]]]]]; reflexivity.
  - destruct (String.eqb_spec (outputFormat o) "table"); [tauto|].
    destruct (String.eqb_spec (outputFormat o) "wide"); [tauto|].
    destruct (String.eqb_spec (outputFormat o) "json"); [tauto|].
    destruct (String.eqb_spec (outputFormat o) "yaml"); [tauto|].
    destruct (String.eqb_spec (outputFormat o) "name"); [tauto|].
    destruct (String.eqb_spec (outputFormat o) ""); [tauto|].
    simpl. discriminate.
Qed.

Lemma Execute_valid (L : Library) (C : Cluster) (a : Args) :
  arg_output a ∈ validFormats →
  Execute L C a = Run L C (completed a) {| Out := ""; queries := [] |}.
Proof.
  intros Hv. unfold Execute.
  destruct (NewCmdIPs a) as [o flags] eqn:Hcmd.
  pose proof (Complete_NewCmdIPs a) as Hc. rewrite Hcmd in Hc. simpl in Hc.
  unfold RunE. rewrite Hc.
  apply (Validate_valid (completed a)) in Hv. by rewrite Hv.
Qed.

Lemma getPods_answers (C : Cluster) (a : Args) (pods : PodList) (w : World) :
  answers C a pods →
  getPods C (completed a) w
  = (Ok pods, {| Out := Out w;
                 queries := queries w ++ [(targetNamespace a, arg_selector a)] |}).
Proof.
  intros (Hrest & Hclient & Hlist). unfold getPods. rewrite Hrest, Hclient.
  unfold listPods, completed, targetNamespace in *. simpl.
  assert (Hsel : (if go_neq (arg_selector a) "" then arg_selector a else "")
                 = arg_selector a).
  { destruct (go_neq (arg_selector a) "") eqn:H; [done|].
    by apply go_neq_false in H. }
  rewrite Hsel.
  destruct (arg_all_namespaces a); simpl; by rewrite Hlist.
Qed.

Lemma Run_answers (L : Library) (C : Cluster) (a : Args) (pods : PodList) :
  arg_output a ∈ validFormats → answers C a pods →
  Execute L C a =
  let o := completed a in
  let w := afterQuery a "" in
  if showIPsOnly o then PrintObj L ipOnlyPrinter (ObjPodList pods) w
  else if (length (Items pods) =? 0)%nat then printNoPodsFound L o w
  else
    let table := generateTable L pods (allNamespaces o)
                   (String.eqb (outputFormat o) wideFormat) (showLabels o) in
    if (length (Rows table) =? 0)%nat then printNoPodsFound L o w
    else
      match createPrinter (outputFormat o) (noHeaders o) (allNamespaces o) with
      | Err e => (Err e, w)
      | Ok printer =>
          match PrintObj L printer (ObjTable table) w with
          | (Err e, w') => (Err (ErrWrap "failed to print object" e), w')
          | r => r
          end
      end.
Proof.
  intros Hv Ha. rewrite Execute_valid by done.
  unfold Run, mbind, M_bind. rewrite (getPods_answers C a pods _ Ha).
  cbv zeta. change {| Out := Out {| Out := ""; queries := [] |};
                      queries := queries {| Out := ""; queries := [] |} ++
                                 [(targetNamespace a, arg_selector a)] |}
    with (afterQuery a "").
  destruct (showIPsOnly (completed a)); [done|].
  destruct (length (Items pods) =? 0)%nat; [done|].
  destruct (length (Rows _) =? 0)%nat; [done|].
  destruct (createPrinter _ _ _); done.
Qed.

(** A loop that only prints. *)
Lemma forEach_Fprint {A} (l : list A) (body : A → M unit) (f : A → string)
    (w : World) :
  (∀ x w', x ∈ l → body x w' = Fprint (f x) w') →
  forEach l body w
  = (Ok tt, {| Out := Out w +:+ foldr (λ x text, f x +:+ text) "" l;
               queries := queries w |}).
Proof.
  revert w. induction l as [|x l IH]; intros w Hbody; simpl.
  - rewrite string_app_nil_r. by destruct w.
  - unfold mbind, M_bind. rewrite Hbody by (apply elem_of_cons; by left).
    unfold Fprint at 1. rewrite IH.
    + simpl. by rewrite string_app_assoc.
    + intros y w' Hy. apply Hbody. apply elem_of_cons. by right.
Qed.

Lemma unlines_fmap {A} (f : A → string) (l : list A) :
  foldr (λ x text, (f x +:+ newline) +:+ text) "" l = unlines (f <$> l).
Proof.
  unfold unlines. induction l as [|x l IH]; simpl; [done|].
  by rewrite IH, string_app_assoc.
Qed.

(** ** C3: the legacy IP-only output *)

Lemma shareNoIPs_cons (p : Pod) (rest : list Pod) :
  shareNoIPs (p :: rest) →
  shareNoIPs rest ∧
  (∀ q x, q ∈ rest → x ≠ "" → x ∈ statusIPs p → x ∉ statusIPs q).
Proof.
  intros Hs. split.
  - intros i j p' q x Hij Hi Hj. apply (Hs (S i) (S j)); [lia|done..].
  - intros q x Hq. apply list_elem_of_lookup_1 in Hq as [j Hj].
    by apply (Hs 0 (S j)).
Qed.

Lemma blocks_ips_from (items : list Pod) (blocks : list (list podIPWithPod)) :
  Forall2 blockOf items blocks →
  ∀ x, x ∈ ip <$> concat blocks →
       x ≠ "" ∧ ∃ q, q ∈ items ∧ x ∈ statusIPs q.
Proof.
  induction 1 as [|p b items blocks Hb HF IH]; simpl; intros x Hx.
  - by apply elem_of_nil in Hx.
  - rewrite fmap_app, elem_of_app in Hx. destruct Hx as [Hx|Hx].
    + destruct Hb as (Hb & Hsub & _).
      split.
      * apply list_elem_of_fmap in Hx as (a & -> & Ha). by apply Hb.
      * exists p. split; [apply elem_of_cons; by left|].
        by eapply elem_of_sublist.
    + destruct (IH x Hx) as (Hne & q & Hq & Hxq).
      split; [done|]. exists q. split; [apply elem_of_cons; by right|done].
Qed.

Lemma blocks_NoDup (items : list Pod) (blocks : list (list podIPWithPod)) :
  shareNoIPs items → Forall2 blockOf items blocks →
  NoDup (ip <$> concat blocks).
Proof.
  intros Hs HF. induction HF as [|p b items blocks Hb HF IH]; simpl.
  - constructor.
  - apply shareNoIPs_cons in Hs as [Hs Hp].
    rewrite fmap_app. apply NoDup_app. split_and!.
    + by destruct Hb as (_ & _ & Hnd & _).
    + intros x Hx Hx'.
      destruct (blocks_ips_from _ _ HF x Hx') as (Hne & q & Hq & Hxq).
      apply (Hp q x Hq Hne); [|done].
      destruct Hb as (_ & Hsub & _). exact (elem_of_sublist _ _ _ Hx Hsub).
    + by apply IH.
Qed.

Lemma extract_ips (pods : PodList) (x : string) :
  x ∈ ip <$> extractPodIPsWithPods pods ↔
  x ≠ "" ∧ ∃ p, p ∈ Items pods ∧ x ∈ statusIPs p.
Proof.
  destruct (extract_blocks pods) as (blocks & Heq & HF & Hall). split.
  - rewrite Heq. by apply (blocks_ips_from (Items pods)).
  - intros (Hne & p & Hp & Hx). by eapply Hall.
Qed.

Lemma extract_NoDup (pods : PodList) :
  shareNoIPs (Items pods) → NoDup (ip <$> extractPodIPsWithPods pods).
Proof.
  intros Hs. destruct (extract_blocks pods) as (blocks & Heq & HF & _).
  rewrite Heq. by apply (blocks_NoDup (Items pods)).
Qed.

Lemma ipOnly_print (L : Library) (pods : PodList) (a : Args) :
  PrintObj L ipOnlyPrinter (ObjPodList pods) (afterQuery a "")
  = (Ok tt, afterQuery a
              (unlines (ip <$> sortPodIPsWithPods L (extractPodIPsWithPods pods)))).
Proof.
  simpl.
  rewrite (forEach_Fprint _ _ (λ item, ip item +:+ newline)) by done.
  by rewrite unlines_fmap.
Qed.

Lemma Execute_ips_only (L : Library) (C : Cluster) (a : Args) (pods : PodList) :
  arg_show_ips_only a = true → arg_output a ∈ validFormats →
  answers C a pods →
  Execute L C a
  = (Ok tt, afterQuery a
              (unlines (ip <$> sortPodIPsWithPods L (extractPodIPsWithPods pods)))).
Proof.
  intros Hips Hv Ha. rewrite (Run_answers L C a pods Hv Ha).
  cbv zeta. unfold completed at 1. cbn [showIPsOnly]. rewrite Hips.
  apply ipOnly_print.
Qed.

(** C3, as stated, fails: the lines are ordered by the pods' namespace and
    name before the IP. Two pods that share no IP, [default/a] with
    10.0.0.2 and [default/b] with 10.0.0.1: under every [sort.Slice] that
    orders slices, [--show-ips-only] prints 10.0.0.2 before 10.0.0.1. *)
Lemma ips_only_not_sorted_by_ip :
  shareNoIPs [podA; podB] ∧
  go_lt "10.0.0.1" "10.0.0.2" = true ∧
  (∀ L C a, SortsSlice L →
     arg_show_ips_only a = true → arg_output a ∈ validFormats →
     answers C a {| Items := [podA; podB] |} →
     Execute L C a = (Ok tt, afterQuery a (unlines ["10.0.0.2"; "10.0.0.1"]))) ∧
  Execute insertionLibrary (constCluster {| Items := [podA; podB] |})
    {| arg_all_namespaces := false; arg_selector := "";
       arg_show_ips_only := true; arg_output := "table";
       arg_no_headers := false; arg_show_labels := false;
       arg_namespace := "" |}
  = (Ok tt, {| Out := unlines ["10.0.0.2"; "10.0.0.1"];
               queries := [("default", "")] |}).
Proof.
  split_and!.
  - intros i j p q x Hij Hi Hj Hne Hp Hq.
    destruct i as [|[|i]], j as [|[|j]]; try done; simpl in Hi, Hj;
      injection Hi as <-; injection Hj as <-;
      unfold statusIPs in Hp, Hq; simpl in Hp, Hq;
      rewrite list_elem_of_singleton in Hp, Hq; congruence.
  - vm_compute. reflexivity.
  - intros L C a HL Hips Hv Ha.
    rewrite (Execute_ips_only L C a _ Hips Hv Ha).
    replace (extractPodIPsWithPods {| Items := [podA; podB] |})
      with [{| pod := podA; ip := "10.0.0.2" |};
            {| pod := podB; ip := "10.0.0.1" |}]
      by (vm_compute; reflexivity).
    rewrite (sort_fixes_sorted_distinct L HL); [done| |].
    + repeat constructor.
    + apply NoDup_cons. split; [|apply NoDup_singleton].
      rewrite list_elem_of_singleton. discriminate.
  - vm_compute. reflexivity.
Qed.

(** C3, amended: with [--show-ips-only], a valid output format and a
    cluster that answers the query, the program prints one IP per line and
    nothing else, and returns success. The lines are the IPs of the
    extractor's pairs, ordered by pod namespace, then pod name, then IP
    string; every non-empty IP of every pod is among them and nothing else
    is; and when no two pods share an IP, each is printed exactly once. *)
Theorem ips_only_output (L : Library) (C : Cluster) (a : Args) (pods : PodList) :
  SortsSlice L →
  arg_show_ips_only a = true → arg_output a ∈ validFormats →
  answers C a pods →
  ∃ sorted,
    Execute L C a = (Ok tt, afterQuery a (unlines (ip <$> sorted))) ∧
    sorted ≡ₚ extractPodIPsWithPods pods ∧
    (∀ i j x y, i < j → sorted !! i = Some x → sorted !! j = Some y →
                lex_le (key x) (key y)) ∧
    (∀ x, x ∈ ip <$> sorted ↔
          x ≠ "" ∧ ∃ p, p ∈ Items pods ∧ x ∈ statusIPs p) ∧
    (shareNoIPs (Items pods) → NoDup (ip <$> sorted)).
Proof.
  intros HL Hips Hv Ha.
  exists (sortPodIPsWithPods L (extractPodIPsWithPods pods)).
  split_and!.
  - by apply Execute_ips_only.
  - by apply sort_perm.
  - intros i j x y. by apply sort_ordered.
  - intros x. rewrite (sort_perm L HL). apply extract_ips.
  - intros Hs. rewrite (sort_perm L HL). by apply extract_NoDup.
Qed.

Lemma ips_only_output_witness :
  ∃ sorted,
    Execute insertionLibrary (constCluster {| Items := [podA; podB] |})
      {| arg_all_namespaces := false; arg_selector := "";
         arg_show_ips_only := true; arg_output := "table";
         arg_no_headers := false; arg_show_labels := false;
         arg_namespace := "" |}
    = (Ok tt, {| Out := unlines (ip <$> sorted);
                 queries := [("default", "")] |}) ∧
    sorted ≡ₚ extractPodIPsWithPods {| Items := [podA; podB] |} ∧
    (∀ i j x y, i < j → sorted !! i = Some x → sorted !! j = Some y →
                lex_le (key x) (key y)) ∧
    (∀ x, x ∈ ip <$> sorted ↔
          x ≠ "" ∧ ∃ p, p ∈ [podA; podB] ∧ x ∈ statusIPs p) ∧
    (shareNoIPs [podA; podB] → NoDup (ip <$> sorted)).
Proof.
  apply (ips_only_output insertionLibrary (constCluster {| Items := [podA; podB] |})
           {| arg_all_namespaces := false; arg_selector := "";
              arg_show_ips_only := true; arg_output := "table";
              arg_no_headers := false; arg_show_labels := false;
              arg_namespace := "" |}
           {| Items := [podA; podB] |}).
  - apply insertionLibrary_SortsSlice.
  - reflexivity.
  - vm_compute. left.
  - vm_compute. repeat split.
Defined.

(** ** C4: a pod that is being deleted *)

(** C4: for every pod whose DeletionTimestamp is set, whatever its phase and
    container states, the formatted status is "Unknown" when Status.Reason
    is "NodeLost" and "Terminating" for every other reason. *)
Theorem deleted_pod_status (p : Pod) (t : Z) :
  DeletionTimestamp p = Some t →
  (Reason (Status p) = "NodeLost" → FormatPodStatus p = "Unknown") ∧
  (Reason (Status p) ≠ "NodeLost" → FormatPodStatus p = "Terminating").
Proof.
  intros Hdel. unfold FormatPodStatus.
  generalize (match checkInitContainers p with
              | (initReason, true) => initReason
              | (_, false) =>
                  checkMainContainers p
                    (if go_neq (Reason (Status p)) "" then Reason (Status p)
                     else Phase (Status p))
              end) as derived.
  intros derived. unfold handlePodDeletion. rewrite Hdel.
  split.
  - intros ->. reflexivity.
  - intros Hne. apply String.eqb_neq in Hne. by rewrite Hne.
Qed.

Lemma deleted_pod_status_witness :
  FormatPodStatus (lostPod None) = "Init:CrashLoopBackOff" ∧
  (Reason (Status (lostPod (Some 5%Z))) = "NodeLost" →
   FormatPodStatus (lostPod (Some 5%Z)) = "Unknown") ∧
  (Reason (Status (lostPod (Some 5%Z))) ≠ "NodeLost" →
   FormatPodStatus (lostPod (Some 5%Z)) = "Terminating").
Proof.
  split; [reflexivity|].
  apply (deleted_pod_status (lostPod (Some 5%Z)) 5%Z). reflexivity.
Defined.

(** ** C5: validation of the output format *)

(** C5: an output format that is none of table, wide, json, yaml, name and
    the empty string makes the program fail with the error "unsupported
    output format" before anything is written and before any cluster query;
    for the listed formats validation succeeds and the command proceeds to
    [Run]. *)
Theorem unsupported_format_rejected (L : Library) (C : Cluster) (a : Args) :
  (arg_output a ∉ validFormats →
     Execute L C a = (Err ErrUnsupportedFormat, {| Out := ""; queries := [] |})) ∧
  Error ErrUnsupportedFormat = "unsupported output format" ∧
  (arg_output a ∈ validFormats →
     Validate (completed a) = Ok tt ∧
     Execute L C a = Run L C (completed a) {| Out := ""; queries := [] |}).
Proof.
  split_and!.
  - intros Hbad. unfold Execute.
    destruct (NewCmdIPs a) as [o flags] eqn:Hcmd.
    pose proof (Complete_NewCmdIPs a) as Hc. rewrite Hcmd in Hc. simpl in Hc.
    unfold RunE. rewrite Hc.
    destruct (Validate (completed a)) as [[]|e] eqn:Hv.
    + destruct Hbad. by apply (Validate_valid (completed a)).
    + unfold Validate in Hv. by destruct (_ || _); simplify_eq.
  - reflexivity.
  - intros Hv. split; [by apply (Validate_valid (completed a))|].
    by apply Execute_valid.
Qed.

Lemma unsupported_format_rejected_witness :
  Execute insertionLibrary (constCluster {| Items := [podA] |})
    {| arg_all_namespaces := false; arg_selector := "";
       arg_show_ips_only := false; arg_output := "csv";
       arg_no_headers := false; arg_show_labels := false;
       arg_namespace := "" |}
  = (Err ErrUnsupportedFormat, {| Out := ""; queries := [] |}).
Proof.
  apply (unsupported_format_rejected insertionLibrary (constCluster {| Items := [podA] |})
           {| arg_all_namespaces := false; arg_selector := "";
              arg_show_ips_only := false; arg_output := "csv";
              arg_no_headers := false; arg_show_labels := false;
              arg_namespace := "" |}).
  unfold validFormats, tableFormat, wideFormat, jsonFormat, yamlFormat,
    nameFormat. simpl.
  rewrite !elem_of_cons, elem_of_nil.
  intros [H|[H|[H|[H|[H|[H|[]]]]]]]; discriminate H.
Defined.

(** ** C7: an empty result is not an error *)

(** C7: with [--all-namespaces], no selector, no [--show-ips-only], a valid
    output format and a cluster that answers the query with an empty pod
    list, the program writes exactly "No pods found in all namespaces" and a
    newline, and returns success: the exit code is zero. *)
Theorem no_pods_all_namespaces (L : Library) (C : Cluster) (a : Args) :
  arg_all_namespaces a = true → arg_selector a = "" →
  arg_show_ips_only a = false → arg_output a ∈ validFormats →
  answers C a {| Items := [] |} →
  Execute L C a
  = (Ok tt, {| Out := "No pods found in all namespaces" +:+ newline;
               queries := [("", "")] |}) ∧
  exitCode (fst (Execute L C a)) = 0%Z.
Proof.
  intros Hall Hsel Hips Hv Ha.
  assert (Hrun : Execute L C a
                 = (Ok tt, {| Out := "No pods found in all namespaces" +:+ newline;
                              queries := [("", "")] |})).
  { rewrite (Run_answers L C a _ Hv Ha). cbv zeta.
    unfold completed, afterQuery, targetNamespace, printNoPodsFound, go_neq.
    cbn [showIPsOnly namespace labelSelector Items length Nat.eqb].
    rewrite Hips, Hall, Hsel. reflexivity. }
  rewrite Hrun. done.
Qed.

Lemma no_pods_all_namespaces_witness :
  Execute insertionLibrary (constCluster {| Items := [] |})
    {| arg_all_namespaces := true; arg_selector := "";
       arg_show_ips_only := false; arg_output := "table";
       arg_no_headers := false; arg_show_labels := false;
       arg_namespace := "kube-system" |}
  = (Ok tt, {| Out := "No pods found in all namespaces" +:+ newline;
               queries := [("", "")] |}) ∧
  exitCode (fst (Execute insertionLibrary (constCluster {| Items := [] |})
    {| arg_all_namespaces := true; arg_selector := "";
       arg_show_ips_only := false; arg_output := "table";
       arg_no_headers := false; arg_show_labels := false;
       arg_namespace := "kube-system" |})) = 0%Z.
Proof.
  apply (no_pods_all_namespaces insertionLibrary (constCluster {| Items := [] |})
    {| arg_all_namespaces := true; arg_selector := "";
       arg_show_ips_only := false; arg_output := "table";
       arg_no_headers := false; arg_show_labels := false;
       arg_namespace := "kube-system" |}); try reflexivity.
  - vm_compute. left.
  - vm_compute. repeat split.
Defined.

(** ** C10: the IP-only path runs before the empty-result check *)

(** C10: with [--show-ips-only], a valid output format and a cluster that
    answers the query with an empty pod list, the program writes nothing, no
    "No pods found" message either, and returns success. *)
Theorem ips_only_empty_prints_nothing (L : Library) (C : Cluster) (a : Args) :
  SortsSlice L →
  arg_show_ips_only a = true → arg_output a ∈ validFormats →
  answers C a {| Items := [] |} →
  Execute L C a = (Ok tt, afterQuery a "") ∧
  Out (snd (Execute L C a)) = "" ∧
  exitCode (fst (Execute L C a)) = 0%Z.
Proof.
  intros HL Hips Hv Ha.
  assert (Hrun : Execute L C a = (Ok tt, afterQuery a "")).
  { rewrite (Execute_ips_only L C a _ Hips Hv Ha).
    change (extractPodIPsWithPods {| Items := [] |}) with (@nil podIPWithPod).
    by rewrite (sort_nil L HL). }
  rewrite Hrun. done.
Qed.

Lemma ips_only_empty_prints_nothing_witness :
  Execute insertionLibrary (constCluster {| Items := [] |})
    {| arg_all_namespaces := true; arg_selector := "app=web";
       arg_show_ips_only := true; arg_output := "table";
       arg_no_headers := false; arg_show_labels := false;
       arg_namespace := "" |}
  = (Ok tt, {| Out := ""; queries := [("", "app=web")] |}).
Proof.
  apply (ips_only_empty_prints_nothing insertionLibrary (constCluster {| Items := [] |})
    {| arg_all_namespaces := true; arg_selector := "app=web";
       arg_show_ips_only := true; arg_output := "table";
       arg_no_headers := false; arg_show_labels := false;
       arg_namespace := "" |}).
  - apply insertionLibrary_SortsSlice.
  - reflexivity.
  - vm_compute. left.
  - vm_compute. repeat split.
Defined.

(** ** C6: the table builder *)

Lemma generateTable_loop (L : Library) (showNamespace wide showLabels : bool)
    (cols : list TableColumnDefinition) (rows : list TableRow)
    (l : list podIPWithPod) :
  foldl (λ table item,
           {| ColumnDefinitions := ColumnDefinitions table;
              Rows := Rows table ++
                [{| Cells := makeTableRow L (pod item) (ip item)
                               showNamespace wide showLabels;
                    Object := pod item |}] |})
        {| ColumnDefinitions := cols; Rows := rows |} l
  = {| ColumnDefinitions := cols;
       Rows := rows ++
         ((λ item, {| Cells := makeTableRow L (pod item) (ip item)
                                 showNamespace wide showLabels;
                      Object := pod item |}) <$> l) |}.
Proof.
  revert rows. induction l as [|item l IH]; intros rows; simpl.
  - by rewrite app_nil_r.
  - rewrite IH. cbn [ColumnDefinitions Rows]. by rewrite <- (assoc_L (++)).
Qed.

Lemma generateTable_eq (L : Library) (pods : PodList)
    (showNamespace wide showLabels : bool) :
  generateTable L pods showNamespace wide showLabels
  = {| ColumnDefinitions := makeTableHeaders showNamespace wide showLabels;
       Rows := (λ item,
                  {| Cells := makeTableRow L (pod item) (ip item)
                                showNamespace wide showLabels;
                     Object := pod item |})
               <$> sortPodIPsWithPods L (extractPodIPsWithPods pods) |}.
Proof. unfold generateTable. cbv zeta. by rewrite generateTable_loop. Qed.


(** ** C9: the namespace appears exactly with [--all-namespaces] *)

Lemma namePrinter_rows (L : Library) (b wide showLabels : bool)
    (l : list podIPWithPod) (w : World) :
  forEach ((λ item, {| Cells := makeTableRow L (pod item) (ip item)
                                  b wide showLabels;
                       Object := pod item |}) <$> l)
          (namePrinter_row b) w
  = (Ok tt, {| Out := Out w +:+ unlines (nameLine b <$> l);
               queries := queries w |}).
Proof.
  rewrite (forEach_Fprint _ _
             (λ row, if b then cell row 0 +:+ "/" +:+ cell row 1 +:+ newline
                     else cell row 0 +:+ newline)).
  - do 3 f_equal. unfold unlines, nameLine.
    induction l as [|item l IH]; [done|].
    cbn [fmap list_fmap foldr]. rewrite IH.
    destruct b, wide, showLabels; unfold cell; simpl;
      by rewrite ?string_app_assoc.
  - intros row w' (item & -> & _)%list_elem_of_fmap.
    unfold namePrinter_row.
    by destruct b, wide, showLabels.
Qed.

Lemma namespace_column (showNamespace wide showLabels : bool) :
  "NAMESPACE" ∈ col_Name <$> makeTableHeaders showNamespace wide showLabels ↔
  showNamespace = true.
Proof.
  destruct showNamespace, wide, showLabels; simpl;
    rewrite ?elem_of_cons, ?elem_of_nil;
    (split; [intros H | intros H; first [discriminate H | by left]]);
    try reflexivity;
    repeat (destruct H as [H|H]; [discriminate H|]); destruct H.
Qed.

(** C9: the table handed to the printer has a NAMESPACE column exactly when
    [--all-namespaces] is set, and a line of name output carries the
    [namespace/] prefix exactly then; for an invocation on a single
    namespace, an explicit [--namespace] included, the table has no
    NAMESPACE column and name output prints bare pod names. *)
Theorem namespace_shown_iff_all_namespaces (L : Library) (C : Cluster)
    (a : Args) (pods : PodList) :
  SortsSlice L →
  arg_show_ips_only a = false →
  answers C a pods →
  extractPodIPsWithPods pods ≠ [] →
  let sorted := sortPodIPsWithPods L (extractPodIPsWithPods pods) in
  let table := generateTable L pods (arg_all_namespaces a)
                 (String.eqb (arg_output a) wideFormat) (arg_show_labels a) in
  ("NAMESPACE" ∈ col_Name <$> ColumnDefinitions table ↔
   arg_all_namespaces a = true) ∧
  (arg_output a ∈ [tableFormat; wideFormat; ""] →
   Execute L C a
   = match TablePrinter_PrintObj L (arg_no_headers a) (ObjTable table) with
     | Ok text => (Ok tt, afterQuery a text)
     | Err e => (Err (ErrWrap "failed to print object" e), afterQuery a "")
     end) ∧
  (arg_output a = nameFormat →
   Execute L C a
   = (Ok tt, afterQuery a (unlines (nameLine (arg_all_namespaces a) <$> sorted))) ∧
   (arg_all_namespaces a = false →
    Execute L C a
    = (Ok tt, afterQuery a (unlines ((λ item, Name (pod item)) <$> sorted))))).
Proof.
  intros HL Hips Ha Hne sorted table.
  assert (Hrows : (length (Rows table) =? 0)%nat = false).
  { apply Nat.eqb_neq. subst table. rewrite generateTable_eq.
    cbn [Rows]. rewrite length_fmap, (sort_perm L HL).
    by destruct (extractPodIPsWithPods pods). }
  assert (Hitems : (length (Items pods) =? 0)%nat = false).
  { apply Nat.eqb_neq. destruct pods as [[|p items]]; [done|].
    simpl. lia. }
  assert (Hexec : arg_output a ∈ validFormats →
            Execute L C a
            = match createPrinter (arg_output a) (arg_no_headers a)
                      (arg_all_namespaces a) with
              | Err e => (Err e, afterQuery a "")
              | Ok printer =>
                  match PrintObj L printer (ObjTable table) (afterQuery a "") with
                  | (Err e, w') => (Err (ErrWrap "failed to print object" e), w')
                  | r => r
                  end
              end).
  { intros Hv. rewrite (Run_answers L C a pods Hv Ha). cbv zeta.
    unfold completed at 1. cbn [showIPsOnly]. rewrite Hips, Hitems.
    unfold completed at 1 2 3. cbn [allNamespaces outputFormat showLabels].
    fold table. rewrite Hrows. reflexivity. }
  split_and!.
  - subst table. rewrite generateTable_eq. cbn [ColumnDefinitions].
    apply namespace_column.
  - intros Hfmt. rewrite Hexec.
    + assert (Hp : createPrinter (arg_output a) (arg_no_headers a)
                     (arg_all_namespaces a) = Ok (tablePrinter (arg_no_headers a))).
      { rewrite !elem_of_cons, elem_of_nil in Hfmt.
        destruct Hfmt as [->|[->|[->|[]]]]; reflexivity. }
      rewrite Hp. simpl.
      destruct (TablePrinter_PrintObj L (arg_no_headers a) (ObjTable table));
        reflexivity.
    + unfold validFormats. rewrite !elem_of_cons, elem_of_nil in *. tauto.
  - intros Hfmt.
    assert (Hname : Execute L C a
              = (Ok tt, afterQuery a
                          (unlines (nameLine (arg_all_namespaces a) <$> sorted)))).
    { rewrite Hexec.
      - rewrite Hfmt. cbn [createPrinter]. simpl.
        subst table. rewrite generateTable_eq. cbn [Rows].
        fold sorted. by rewrite namePrinter_rows.
      - rewrite Hfmt. unfold validFormats. set_solver. }
    split; [exact Hname|].
    intros Hsingle. rewrite Hname, Hsingle. reflexivity.
Qed.

Lemma namespace_shown_iff_all_namespaces_witness :
  Execute insertionLibrary (constCluster {| Items := [podB; podA] |})
    {| arg_all_namespaces := false; arg_selector := "";
       arg_show_ips_only := false; arg_output := "name";
       arg_no_headers := false; arg_show_labels := false;
       arg_namespace := "default" |}
  = (Ok tt, {| Out := unlines ["a"; "b"]; queries := [("default", "")] |}).
Proof.
  destruct (namespace_shown_iff_all_namespaces insertionLibrary
              (constCluster {| Items := [podB; podA] |})
              {| arg_all_namespaces := false; arg_selector := "";
                 arg_show_ips_only := false; arg_output := "name";
                 arg_no_headers := false; arg_show_labels := false;
                 arg_namespace := "default" |}
              {| Items := [podB; podA] |}) as (_ & _ & Hname).
  - apply insertionLibrary_SortsSlice.
  - reflexivity.
  - vm_compute. repeat split.
  - vm_compute. discriminate.
  - destruct (Hname eq_refl) as [_ Hbare]. exact (Hbare eq_refl).
Defined.

(** ** Further properties of the formatters and the command *)

Lemma count_ready_loop (cs : list ContainerStatus) (n : nat) :
  foldl (λ n c, if Ready c then S n else n) n cs
  = n + length (filter (λ c, Ready c = true) cs).
Proof.
  revert n. induction cs as [|c cs IH]; intros n; simpl; [lia|].
  rewrite IH. destruct (Ready c) eqn:Hr.
  - rewrite filter_cons_True by done. simpl. lia.
  - rewrite filter_cons_False by (rewrite Hr; done). lia.
Qed.

(** The Ready cell is the number of container statuses with
    [Ready] set, a slash, and the number of container statuses; it is "0/0"
    for a pod with no container status. *)
Theorem ready_counts_ready_containers (p : Pod) :
  FormatPodReady p
  = pretty (length (filter (λ c, Ready c = true) (ContainerStatuses (Status p))))
    +:+ "/" +:+ pretty (length (ContainerStatuses (Status p))) ∧
  (ContainerStatuses (Status p) = [] → FormatPodReady p = "0/0").
Proof.
  unfold FormatPodReady. cbv zeta. rewrite count_ready_loop. split; [done|].
  intros ->. reflexivity.
Qed.

Lemma ready_counts_ready_containers_witness :
  FormatPodReady (runningPod "default" "web" "node-a" "10.0.0.1" []) = "0/0".
Proof.
  apply (ready_counts_ready_containers
           (runningPod "default" "web" "node-a" "10.0.0.1" [])).
  reflexivity.
Defined.

(** Pods without any IP are reported like an empty result. Without
    [--show-ips-only], with a valid output format and a successful query
    whose pods yield no (pod, IP) pair, the program writes the line
    "No pods found in <namespace>", with "all namespaces" for the empty
    namespace, and returns success; a selector that [labels.Parse] accepts
    is appended, quoted, in the form the parser gives it. On a selector
    that does not parse the program panics with a nil dereference before it
    has written anything. *)
Theorem no_pod_ips_message (L : Library) (C : Cluster) (a : Args) (pods : PodList) :
  SortsSlice L →
  arg_show_ips_only a = false → arg_output a ∈ validFormats →
  answers C a pods →
  extractPodIPsWithPods pods = [] →
  (arg_selector a = "" →
   Execute L C a
   = (Ok tt,
      afterQuery a
        ("No pods found in "
         +:+ (if String.eqb (targetNamespace a) "" then "all namespaces"
              else targetNamespace a)
         +:+ newline))) ∧
  (∀ selector,
     arg_selector a ≠ "" → labels_Parse L (arg_selector a) = Ok selector →
     Execute L C a
     = (Ok tt,
        afterQuery a
          ("No pods found in "
           +:+ (if String.eqb (targetNamespace a) "" then "all namespaces"
                else targetNamespace a)
           +:+ (" matching selector " +:+ fmt_q L selector)
           +:+ newline))) ∧
  (∀ e,
     arg_selector a ≠ "" → labels_Parse L (arg_selector a) = Err e →
     Execute L C a = (Err (ErrPanic nilDereference), afterQuery a "") ∧
     exitCode (fst (Execute L C a)) = 2%Z).
Proof.
  intros HL Hips Hv Ha Hnone.
  assert (Hrun : Execute L C a
                 = printNoPodsFound L (completed a) (afterQuery a "")).
  { rewrite (Run_answers L C a pods Hv Ha). cbv zeta.
    unfold completed at 1. cbn [showIPsOnly]. rewrite Hips.
    rewrite generateTable_eq. cbn [Rows]. rewrite Hnone, (sort_nil L HL).
    cbn [fmap list_fmap length Nat.eqb].
    by destruct (length (Items pods) =? 0)%nat. }
  rewrite Hrun. unfold printNoPodsFound. cbv zeta.
  unfold completed. cbn [namespace labelSelector].
  split_and!.
  - intros ->. reflexivity.
  - intros selector Hne%go_neq_true Hparse. by rewrite Hne, Hparse.
  - intros e Hne%go_neq_true Hparse. by rewrite Hne, Hparse.
Qed.

Lemma no_pod_ips_message_witness :
  Execute insertionLibrary (constCluster {| Items := [runningPod "dev" "web" "" "" []] |})
    {| arg_all_namespaces := false; arg_selector := "app=web";
       arg_show_ips_only := false; arg_output := "wide";
       arg_no_headers := false; arg_show_labels := false;
       arg_namespace := "dev" |}
  = (Ok tt, {| Out := "No pods found in dev matching selector app=web" +:+ newline;
               queries := [("dev", "app=web")] |}) ∧
  exitCode
    (fst (Execute refusingLibrary
            (constCluster {| Items := [runningPod "dev" "web" "" "" []] |})
            {| arg_all_namespaces := false; arg_selector := "app in (";
               arg_show_ips_only := false; arg_output := "wide";
               arg_no_headers := false; arg_show_labels := false;
               arg_namespace := "dev" |}))
  = 2%Z.
Proof.
  split.
  - destruct (no_pod_ips_message insertionLibrary
                (constCluster {| Items := [runningPod "dev" "web" "" "" []] |})
                {| arg_all_namespaces := false; arg_selector := "app=web";
                   arg_show_ips_only := false; arg_output := "wide";
                   arg_no_headers := false; arg_show_labels := false;
                   arg_namespace := "dev" |}
                {| Items := [runningPod "dev" "web" "" "" []] |})
      as (_ & Hsel & _).
    + apply insertionLibrary_SortsSlice.
    + reflexivity.
    + vm_compute. right. left.
    + vm_compute. repeat split.
    + reflexivity.
    + apply (Hsel "app=web"); [discriminate|reflexivity].
  - destruct (no_pod_ips_message refusingLibrary
                (constCluster {| Items := [runningPod "dev" "web" "" "" []] |})
                {| arg_all_namespaces := false; arg_selector := "app in (";
                   arg_show_ips_only := false; arg_output := "wide";
                   arg_no_headers := false; arg_show_labels := false;
                   arg_namespace := "dev" |}
                {| Items := [runningPod "dev" "web" "" "" []] |})
      as (_ & _ & Hpanic).
    + apply insertionLibrary_SortsSlice.
    + reflexivity.
    + vm_compute. right. left.
    + vm_compute. repeat split.
    + reflexivity.
    + apply (Hpanic (ErrLibrary "unable to parse requirement"));
        [discriminate|reflexivity].
Defined.

(** [Complete] never fails for the command [NewCmdIPs] builds, and
    settles the namespace: empty with [--all-namespaces], whatever
    [--namespace] says; otherwise the value of [--namespace], and "default"
    when that is empty. *)
Theorem namespace_resolution (a : Args) :
  ∃ o, Complete (fst (NewCmdIPs a)) (snd (NewCmdIPs a)) = Ok o ∧
       allNamespaces o = arg_all_namespaces a ∧
       (arg_all_namespaces a = true → namespace o = "") ∧
       (arg_all_namespaces a = false → arg_namespace a = "" →
        namespace o = "default") ∧
       (arg_all_namespaces a = false → arg_namespace a ≠ "" →
        namespace o = arg_namespace a).
Proof.
  exists (completed a). split; [apply Complete_NewCmdIPs|].
  unfold completed, targetNamespace. cbn [allNamespaces namespace].
  split_and!; [done|by intros ->|by intros -> ->|].
  intros -> Hne. apply String.eqb_neq in Hne. by rewrite Hne.
Qed.

(** The Labels cell is "<none>" for a pod without labels; for a single
    label it is "key=value", whenever the iteration over the map yields the
    map's entries. *)
Theorem labels_cell (L : Library) (k v : string) :
  (∀ m, range_map L m ≡ₚ map_to_list m) →
  FormatLabels L ∅ = "<none>" ∧
  FormatLabels L {[ k := v ]} = k +:+ "=" +:+ v.
Proof.
  intros Hrange. split; [reflexivity|].
  unfold FormatLabels. rewrite map_size_singleton. cbn [Nat.eqb].
  pose proof (Hrange {[ k := v ]}) as Hp.
  rewrite map_to_list_singleton in Hp.
  apply Permutation_singleton_r in Hp. rewrite Hp. reflexivity.
Qed.

Lemma labels_cell_witness :
  FormatLabels insertionLibrary ∅ = "<none>" ∧
  FormatLabels insertionLibrary {[ "app" := "nginx" ]} = "app=nginx".
Proof.
  apply (labels_cell insertionLibrary "app" "nginx"). intros m. reflexivity.
Defined.

(** ** The comparison handed to [sort.Slice] *)

(** [sort.Slice] asks for a strict weak ordering. The closure of
    [sortPodIPsWithPods] is one: irreflexive, asymmetric and transitive; two
    pairs neither of which is less than the other have the same
    (namespace, name, ip) key; and "not less" is transitive. *)
Theorem less_strict_weak_order :
  (∀ a, less a a = false) ∧
  (∀ a b, less a b = true → less b a = false) ∧
  (∀ a b c, less a b = true → less b c = true → less a c = true) ∧
  (∀ a b, less a b = false → less b a = false ↔ key a = key b) ∧
  (∀ a b c, less a b = false → less b c = false → less a c = false).
Proof.
  split_and!.
  - apply less_irrefl.
  - apply less_asym.
  - intros a b c Hab Hbc.
    destruct (less a c) eqn:Hac; [done|].
    apply (less_false_lex_le c a) in Hac.
    destruct (lex_le_total (key b) (key c)) as [Hle|Hle].
    + assert (Hba : lex_le (key b) (key a)) by (by etrans).
      apply (less_false_lex_le b a) in Hba. congruence.
    + apply (less_false_lex_le c b) in Hle. congruence.
  - intros a b Hab. split.
    + intros Hba. apply (anti_symm lex_le).
      * by apply (less_false_lex_le a b).
      * by apply (less_false_lex_le b a).
    + intros Hk. apply (less_false_lex_le a b). rewrite Hk.
      apply (less_false_lex_le b b), less_irrefl.
  - intros a b c Hab Hbc. apply (less_false_lex_le c a).
    apply (less_false_lex_le b a) in Hab.
    apply (less_false_lex_le c b) in Hbc. by etrans.
Qed.

(** ** The extractor attributes IPs to the right pods *)

Lemma blocks_sound (items : list Pod) (blocks : list (list podIPWithPod)) :
  Forall2 blockOf items blocks →
  (∀ a, a ∈ concat blocks →
        pod a ∈ items ∧ ip a ≠ "" ∧ ip a ∈ statusIPs (pod a)) ∧
  (∀ p, p ∈ items → PodIP (Status p) ≠ "" →
        {| pod := p; ip := PodIP (Status p) |} ∈ concat blocks) ∧
  (NoDup items → NoDup (concat blocks)) ∧
  (length (concat blocks) ≤ sum_list ((λ p, length (statusIPs p)) <$> items))%nat.
Proof.
  induction 1 as [|p b items blocks Hb HF (IH1 & IH2 & IH3 & IH4)]; simpl.
  { split_and!; [|intros p Hp; by apply elem_of_nil in Hp|constructor|lia].
    intros a Ha. by apply elem_of_nil in Ha. }
  destruct Hb as (Hpod & Hsub & Hnd & Hhead).
  split_and!.
  - intros a [Ha|Ha]%elem_of_app.
    + destruct (Hpod a Ha) as [Hp Hne]. split_and!; [|done|].
      * rewrite Hp. apply elem_of_cons. by left.
      * rewrite Hp. eapply elem_of_sublist; [|exact Hsub].
        by apply list_elem_of_fmap_2.
    + destruct (IH1 a Ha) as (? & ? & ?). split_and!; [|done..].
      apply elem_of_cons. by right.
  - intros q [->|Hq]%elem_of_cons Hne; apply elem_of_app.
    + left. specialize (Hhead Hne). destruct b as [|x b]; [done|].
      injection Hhead as ->. apply elem_of_cons. by left.
    + right. by apply IH2.
  - intros [Hp Hitems]%NoDup_cons. apply NoDup_app. split_and!.
    + by eapply NoDup_fmap_1.
    + intros a Ha Ha'. destruct (Hpod a Ha) as [Hpa _].
      destruct (IH1 a Ha') as (Hin & _). by rewrite Hpa in Hin.
    + by apply IH3.
  - rewrite length_app.
    apply sublist_length in Hsub. rewrite length_fmap in Hsub.
    simpl in IH4, Hsub |- *. unfold fmap in IH4. lia.
Qed.

(** Every pair the extractor emits carries a pod of the list and a non-empty
    IP that stands in that pod's own status; the primary IP of every pod
    that has one is emitted for that pod; no pair is emitted twice when the
    pods of the list are different; and there are at most as many pairs as
    IP fields. *)
Theorem extractor_sound (pods : PodList) :
  (∀ a, a ∈ extractPodIPsWithPods pods →
        pod a ∈ Items pods ∧ ip a ≠ "" ∧ ip a ∈ statusIPs (pod a)) ∧
  (∀ p, p ∈ Items pods → PodIP (Status p) ≠ "" →
        {| pod := p; ip := PodIP (Status p) |} ∈ extractPodIPsWithPods pods) ∧
  (NoDup (Items pods) → NoDup (extractPodIPsWithPods pods)) ∧
  (length (extractPodIPsWithPods pods)
   ≤ sum_list ((λ p, length (statusIPs p)) <$> Items pods))%nat.
Proof.
  destruct (extract_blocks pods) as (blocks & Heq & HF & _).
  rewrite Heq. by apply blocks_sound.
Qed.

(** ** The table follows the sorted pairs *)

(** [generateTable] builds one row per extracted pair, in the sorter's
    order: the row's object is the pair's pod, its name cell the pod's name
    and its IP cell the pair's IP; the table has no row exactly when the
    extractor finds no pair. *)
Theorem table_rows_follow_pairs (L : Library) (pods : PodList)
    (showNamespace wide showLabels : bool) :
  SortsSlice L →
  let sorted := sortPodIPsWithPods L (extractPodIPsWithPods pods) in
  let table := generateTable L pods showNamespace wide showLabels in
  length (Rows table) = length (extractPodIPsWithPods pods) ∧
  Object <$> Rows table = pod <$> sorted ∧
  (λ row, (Cells row !! (if showNamespace then 1 else 0)%nat,
           Cells row !! (if showNamespace then 2 else 1)%nat)) <$> Rows table
  = (λ a, (Some (Name (pod a)), Some (ip a))) <$> sorted ∧
  (Rows table = [] ↔ extractPodIPsWithPods pods = []).
Proof.
  intros HL sorted table. subst table. rewrite generateTable_eq.
  cbn [Rows]. fold sorted.
  assert (Hlen : length sorted = length (extractPodIPsWithPods pods))
    by (subst sorted; by rewrite (sort_perm L HL)).
  split_and!.
  - by rewrite length_fmap.
  - rewrite <- list_fmap_compose. by apply list_fmap_ext.
  - rewrite <- list_fmap_compose. apply list_fmap_ext. intros i a _. simpl.
    by destruct showNamespace, wide, showLabels.
  - split.
    + intros Hs. apply fmap_nil_inv in Hs. rewrite Hs in Hlen.
      by apply nil_length_inv.
    + intros He. rewrite He in Hlen. apply nil_length_inv in Hlen.
      by rewrite Hlen.
Qed.

Lemma table_rows_follow_pairs_witness :
  Object <$> Rows (generateTable insertionLibrary {| Items := [podB; podA] |}
                     true false false)
  = [podA; podB].
Proof.
  destruct (table_rows_follow_pairs insertionLibrary {| Items := [podB; podA] |}
              true false false insertionLibrary_SortsSlice)
    as (_ & Hobj & _).
  exact Hobj.
Defined.

(** ** The Restarts cell *)

Lemma wrap32_add (a b : Z) : wrap32 (wrap32 a + b) = wrap32 (a + b).
Proof.
  unfold wrap32.
  replace ((a + 2 ^ 31) mod 2 ^ 32 - 2 ^ 31 + b + 2 ^ 31)%Z
    with ((a + 2 ^ 31) mod 2 ^ 32 + b)%Z by lia.
  rewrite Zplus_mod_idemp_l. f_equal. f_equal. lia.
Qed.

Lemma restarts_loop (cs : list ContainerStatus) (r : Z) :
  foldl (λ r c, wrap32 (r + RestartCount c)) (wrap32 r) cs
  = wrap32 (r + restartSum cs).
Proof.
  revert r. induction cs as [|c cs IH]; intros r; simpl.
  - by rewrite Z.add_0_r.
  - rewrite wrap32_add, IH. f_equal. lia.
Qed.

(** The Restarts cell is the sum of the containers' restart counts taken as
    an [int32]: the sum itself whenever it fits in 32 bits, and the sum
    wrapped around otherwise. *)
Theorem restarts_is_wrapped_sum (p : Pod) :
  FormatRestarts p = pretty (wrap32 (restartSum (ContainerStatuses (Status p)))) ∧
  ((- 2 ^ 31 ≤ restartSum (ContainerStatuses (Status p)) < 2 ^ 31)%Z →
   FormatRestarts p = pretty (restartSum (ContainerStatuses (Status p)))).
Proof.
  assert (Hsum : FormatRestarts p
                 = pretty (wrap32 (restartSum (ContainerStatuses (Status p))))).
  { unfold FormatRestarts. cbv zeta.
    change 0%Z with (wrap32 0) at 1. by rewrite restarts_loop. }
  split; [exact Hsum|].
  intros Hfit. rewrite Hsum. f_equal. unfold wrap32.
  rewrite Z.mod_small by lia. lia.
Qed.

Lemma restarts_is_wrapped_sum_witness :
  FormatRestarts (statusPod [] [runningSidecar; runningSidecar; finishedInit])
  = pretty 4%Z ∧
  FormatRestarts (statusPod [] [containerStatus true 2147483647;
                                containerStatus true 1])
  = "-2147483648".
Proof.
  split.
  - apply (restarts_is_wrapped_sum
             (statusPod [] [runningSidecar; runningSidecar; finishedInit])).
    vm_compute. split; [intros H; discriminate H|reflexivity].
  - apply (restarts_is_wrapped_sum
             (statusPod [] [containerStatus true 2147483647;
                            containerStatus true 1])).
Defined.

(** ** The Status cell *)

Lemma checkInit_done (total i : nat) (cs : list ContainerStatus) :
  forallb initDone cs = true →
  checkInitContainersFrom total i cs = ("", false).
Proof.
  revert i. induction cs as [|c cs IH]; intros i; simpl; [done|].
  unfold initDone at 1.
  destruct (Terminated (State c)) as [t|]; [|done].
  destruct (ExitCode t =? 0)%Z; [|done]. simpl. apply IH.
Qed.

Lemma checkInit_unfinished (total i : nat) (cs : list ContainerStatus) :
  forallb initDone cs = false →
  ∃ r, checkInitContainersFrom total i cs = ("Init:" +:+ r, true).
Proof.
  revert i. induction cs as [|c cs IH]; intros i; simpl; [done|].
  unfold initDone at 1, formatInitTerminatedReason.
  destruct (Terminated (State c)) as [t|].
  - destruct (ExitCode t =? 0)%Z; simpl; [apply IH|]. intros _.
    destruct (String.eqb (Terminated_Reason t) "");
      [destruct (negb (Signal t =? 0)%Z)|]; eexists; reflexivity.
  - intros _. destruct (Waiting (State c)) as [w|];
      [destruct (_ && _)|]; eexists; reflexivity.
Qed.

Lemma checkInit_skip (total i : nat) (pre rest : list ContainerStatus) :
  forallb initDone pre = true →
  checkInitContainersFrom total i (pre ++ rest)
  = checkInitContainersFrom total (i + length pre) rest.
Proof.
  revert i. induction pre as [|x pre IH]; intros i Hpre; simpl.
  - by rewrite Nat.add_0_r.
  - simpl in Hpre. apply andb_true_iff in Hpre as [Hx Hpre].
    unfold initDone in Hx.
    destruct (Terminated (State x)) as [t|]; [|done]. rewrite Hx.
    rewrite (IH (S i) Hpre).
    by replace (S i + length pre)%nat with (i + S (length pre))%nat by lia.
Qed.

(** Init containers come first: when every init container has terminated
    with exit code zero they say nothing; otherwise the first init
    container that has not done so decides, and for a pod that is not being
    deleted what it reports is the status, whatever the main containers
    report. A terminated one reports "Init:" with its reason, or else
    "Init:Signal:" with its signal, or else "Init:ExitCode:" with its exit
    code; one that waits with a reason other than "PodInitializing" reports
    "Init:" with that reason; any other reports "Init:k/n", the number of
    init containers finished before it over their total number. *)
Theorem init_containers_come_first (p : Pod) :
  (forallb initDone (InitContainerStatuses (Status p)) = true →
   checkInitContainers p = ("", false)) ∧
  (forallb initDone (InitContainerStatuses (Status p)) = false →
   ∃ r, checkInitContainers p = ("Init:" +:+ r, true) ∧
        (DeletionTimestamp p = None → FormatPodStatus p = "Init:" +:+ r)) ∧
  (∀ r, checkInitContainers p = (r, true) → DeletionTimestamp p = None →
        FormatPodStatus p = r) ∧
  (∀ pre c post,
     InitContainerStatuses (Status p) = pre ++ c :: post →
     forallb initDone pre = true →
     (∀ t, Terminated (State c) = Some t → ExitCode t ≠ 0%Z →
           Terminated_Reason t ≠ "" →
           checkInitContainers p = ("Init:" +:+ Terminated_Reason t, true)) ∧
     (∀ t, Terminated (State c) = Some t → ExitCode t ≠ 0%Z →
           Terminated_Reason t = "" → Signal t ≠ 0%Z →
           checkInitContainers p
           = ("Init:Signal:" +:+ pretty (Signal t), true)) ∧
     (∀ t, Terminated (State c) = Some t → ExitCode t ≠ 0%Z →
           Terminated_Reason t = "" → Signal t = 0%Z →
           checkInitContainers p
           = ("Init:ExitCode:" +:+ pretty (ExitCode t), true)) ∧
     (∀ w, Terminated (State c) = None → Waiting (State c) = Some w →
           Waiting_Reason w ≠ "" → Waiting_Reason w ≠ "PodInitializing" →
           checkInitContainers p = ("Init:" +:+ Waiting_Reason w, true)) ∧
     (Terminated (State c) = None →
      (∀ w, Waiting (State c) = Some w →
            Waiting_Reason w = "" ∨ Waiting_Reason w = "PodInitializing") →
      checkInitContainers p
      = ("Init:" +:+ pretty (length pre) +:+ "/"
         +:+ pretty (length (InitContainerStatuses (Status p))), true))).
Proof.
  split_and!.
  - apply checkInit_done.
  - intros Hnot.
    destruct (checkInit_unfinished
                (length (InitContainerStatuses (Status p))) 0 _ Hnot) as [r Hr].
    exists r. split; [exact Hr|].
    intros Hdel. unfold FormatPodStatus. cbv zeta.
    unfold checkInitContainers in *. rewrite Hr.
    unfold handlePodDeletion. by rewrite Hdel.
  - intros r Hr Hdel. unfold FormatPodStatus. cbv zeta.
    rewrite Hr. unfold handlePodDeletion. by rewrite Hdel.
  - intros pre c post Heq Hpre.
    assert (Hfirst : checkInitContainers p
                     = checkInitContainersFrom
                         (length (InitContainerStatuses (Status p)))
                         (length pre) (c :: post)).
    { unfold checkInitContainers. rewrite Heq at 2.
      by rewrite (checkInit_skip _ 0 pre (c :: post) Hpre). }
    rewrite Hfirst. cbn [checkInitContainersFrom].
    unfold formatInitTerminatedReason. split_and!.
    + intros t -> Hexit%Z.eqb_neq Hreason%String.eqb_neq.
      by rewrite Hexit, Hreason.
    + intros t -> Hexit%Z.eqb_neq -> Hsignal%Z.eqb_neq.
      by rewrite Hexit, Hsignal.
    + intros t -> Hexit%Z.eqb_neq -> ->. by rewrite Hexit.
    + intros w -> -> Hempty%go_neq_true Hinit%go_neq_true.
      by rewrite Hempty, Hinit.
    + intros -> Hwait. destruct (Waiting (State c)) as [w|]; [|done].
      by destruct (Hwait w eq_refl) as [-> | ->].
Qed.

Lemma init_containers_come_first_witness :
  FormatPodStatus (statusPod [finishedInit; pendingInit; pendingInit]
                             [runningSidecar])
  = "Init:1/3".
Proof.
  destruct (init_containers_come_first
              (statusPod [finishedInit; pendingInit; pendingInit]
                         [runningSidecar])) as (_ & _ & Hstatus & Hfirst).
  apply Hstatus; [|reflexivity].
  destruct (Hfirst [finishedInit] pendingInit [pendingInit] eq_refl eq_refl)
    as (_ & _ & _ & _ & Hcount).
  apply Hcount; [reflexivity|].
  intros w [= <-]. by right.
Defined.

Lemma checkMain_loop (cs : list ContainerStatus) (currentReason : string) :
  foldl (λ '(reason, hasRunning) container,
           let newReason := getContainerReason container in
           (if go_neq newReason "" then newReason else reason,
            if Ready container && bool_decide (is_Some (Running (State container)))
            then true else hasRunning))
        (currentReason, false) (reverse cs)
  = (firstReason cs currentReason, anyRunningReady cs).
Proof.
  induction cs as [|c cs IH]; [done|].
  rewrite reverse_cons, foldl_app, IH. simpl.
  by destruct (go_neq _ _), (Ready c && _).
Qed.

(** Among the main containers the first one in the list that reports a
    reason decides; when none does, the reason given stays. A decision of
    "Completed" becomes "Running" when some container is running and ready,
    so with such a container the result is never "Completed". *)
Theorem main_containers_first_reason (p : Pod) (currentReason : string) :
  checkMainContainers p currentReason
  = (let reason := firstReason (ContainerStatuses (Status p)) currentReason in
     if String.eqb reason "Completed"
        && anyRunningReady (ContainerStatuses (Status p))
     then "Running" else reason) ∧
  (anyRunningReady (ContainerStatuses (Status p)) = true →
   checkMainContainers p currentReason ≠ "Completed") ∧
  (ContainerStatuses (Status p) = [] →
   checkMainContainers p currentReason = currentReason).
Proof.
  assert (Heq : checkMainContainers p currentReason
                = (let reason := firstReason (ContainerStatuses (Status p))
                                   currentReason in
                   if String.eqb reason "Completed"
                      && anyRunningReady (ContainerStatuses (Status p))
                   then "Running" else reason)).
  { unfold checkMainContainers. by rewrite checkMain_loop. }
  split_and!; [exact Heq| |].
  - intros Hany. rewrite Heq. cbv zeta. rewrite Hany, andb_true_r.
    destruct (String.eqb_spec
                (firstReason (ContainerStatuses (Status p)) currentReason)
                "Completed"); [discriminate|done].
  - intros Hnil. rewrite Heq, Hnil. simpl. by rewrite andb_false_r.
Qed.

(** What a container reports: its waiting reason when it waits with one;
    otherwise, when it has terminated, its termination reason, or else
    "Signal:" with its signal, or else "ExitCode:" with its exit code;
    otherwise nothing. So it reports no reason exactly when it has not
    terminated and does not wait with a reason. *)
Theorem container_reason_empty_iff (c : ContainerStatus) :
  (getContainerReason c = "" ↔
   Terminated (State c) = None ∧
   (∀ w, Waiting (State c) = Some w → Waiting_Reason w = "")) ∧
  (∀ w, Waiting (State c) = Some w → Waiting_Reason w ≠ "" →
        getContainerReason c = Waiting_Reason w) ∧
  ((∀ w, Waiting (State c) = Some w → Waiting_Reason w = "") →
   (∀ t, Terminated (State c) = Some t → Terminated_Reason t ≠ "" →
         getContainerReason c = Terminated_Reason t) ∧
   (∀ t, Terminated (State c) = Some t → Terminated_Reason t = "" →
         Signal t ≠ 0%Z →
         getContainerReason c = "Signal:" +:+ pretty (Signal t)) ∧
   (∀ t, Terminated (State c) = Some t → Terminated_Reason t = "" →
         Signal t = 0%Z →
         getContainerReason c = "ExitCode:" +:+ pretty (ExitCode t))).
Proof.
  split_and!.
  - unfold getContainerReason, formatTerminatedReason.
    destruct (Waiting (State c)) as [w|], (Terminated (State c)) as [t|];
      repeat match goal with
             | |- context [go_neq ?x ""] =>
                 let H := fresh "H" in
                 destruct (go_neq x "") eqn:H;
                 [apply go_neq_true in H|apply go_neq_false in H]
             | |- context [negb ?b] => destruct (negb b)
             end;
      split; try (intros [? ?]; discriminate); try (intros H'; exfalso; congruence);
      try (intros H'; discriminate H');
      try (intros _; split; [done|]; intros ? [= <-]; done);
      try (intros [_ Hw]; specialize (Hw _ eq_refl); congruence);
      try (intros _; split; [done|]; intros ? ?; discriminate);
      try done.
  - intros w Hw Hne%go_neq_true. unfold getContainerReason.
    by rewrite Hw, Hne.
  - intros Hwait.
    assert (Hterm : ∀ t, Terminated (State c) = Some t →
              getContainerReason c
              = if go_neq (Terminated_Reason t) "" then Terminated_Reason t
                else if negb (Signal t =? 0)%Z
                     then "Signal:" +:+ pretty (Signal t)
                     else "ExitCode:" +:+ pretty (ExitCode t)).
    { intros t Ht. unfold getContainerReason, formatTerminatedReason.
      rewrite Ht. destruct (Waiting (State c)) as [w|]; [|done].
      by rewrite (Hwait w eq_refl). }
    split_and!.
    + intros t Ht Hne%go_neq_true. by rewrite (Hterm t Ht), Hne.
    + intros t Ht Hempty Hsig%Z.eqb_neq. by rewrite (Hterm t Ht), Hempty, Hsig.
    + intros t Ht Hempty Hsig. by rewrite (Hterm t Ht), Hempty, Hsig.
Qed.

(** The status of a pod that is not being deleted and whose init containers
    have all finished: the first reason a main container reports, else the
    pod's [Status.Reason], else its phase; with "Completed" turned into
    "Running" beside a running, ready container. A pod without container
    statuses shows its reason, or its phase when it has none. *)
Theorem status_of_settled_pod (p : Pod) :
  DeletionTimestamp p = None →
  forallb initDone (InitContainerStatuses (Status p)) = true →
  FormatPodStatus p
  = (let own := if go_neq (Reason (Status p)) "" then Reason (Status p)
                else Phase (Status p) in
     let reason := firstReason (ContainerStatuses (Status p)) own in
     if String.eqb reason "Completed"
        && anyRunningReady (ContainerStatuses (Status p))
     then "Running" else reason) ∧
  (ContainerStatuses (Status p) = [] →
   FormatPodStatus p
   = if go_neq (Reason (Status p)) "" then Reason (Status p)
     else Phase (Status p)).
Proof.
  intros Hdel Hinit.
  assert (Heq : FormatPodStatus p
                = checkMainContainers p
                    (if go_neq (Reason (Status p)) "" then Reason (Status p)
                     else Phase (Status p))).
  { unfold FormatPodStatus, checkInitContainers. cbv zeta.
    rewrite (checkInit_done _ 0 _ Hinit).
    unfold handlePodDeletion. by rewrite Hdel. }
  split.
  - rewrite Heq. unfold checkMainContainers. by rewrite checkMain_loop.
  - intros Hnil. rewrite Heq. unfold checkMainContainers.
    rewrite checkMain_loop, Hnil. simpl. by rewrite andb_false_r.
Qed.

Lemma status_of_settled_pod_witness :
  FormatPodStatus (statusPod [finishedInit] [finishedInit; runningSidecar])
  = "Running".
Proof.
  destruct (status_of_settled_pod
              (statusPod [finishedInit] [finishedInit; runningSidecar])
              eq_refl eq_refl) as [Hstatus _].
  exact Hstatus.
Defined.

(** ** Formats and printers *)

(** [createPrinter] knows exactly the formats [Validate] lets through: for
    options that pass validation a printer exists, and for the others both
    functions fail with the same error. *)
Theorem createPrinter_agrees_with_Validate (o : IPsOptions) (nh ns : bool) :
  (Validate o = Ok tt ↔ ∃ p, createPrinter (outputFormat o) nh ns = Ok p) ∧
  (Validate o = Err ErrUnsupportedFormat ↔
   createPrinter (outputFormat o) nh ns = Err ErrUnsupportedFormat).
Proof.
  unfold Validate, createPrinter, tableFormat, wideFormat, jsonFormat,
    yamlFormat, nameFormat.
  destruct (String.eqb (outputFormat o) "json"),
           (String.eqb (outputFormat o) "yaml"),
           (String.eqb (outputFormat o) "name"),
           (String.eqb (outputFormat o) "table"),
           (String.eqb (outputFormat o) "wide"),
           (String.eqb (outputFormat o) ""); simpl;
    (split; split; [eauto|done|intros H; discriminate H|intros H; discriminate H])
    || (split; split; [intros H; discriminate H|intros [? H]; discriminate H|done|done]).
Qed.

Lemma namePrinter_lines (b : bool) (rows : list TableRow) (w : World) :
  forEach rows (namePrinter_row b) w
  = (Ok tt,
     {| Out := Out w +:+ unlines (nameOf b <$>
                 filter (λ row, (2 ≤ length (Cells row))%nat) rows);
        queries := queries w |}).
Proof.
  revert w. induction rows as [|row rows IH]; intros w.
  - simpl. rewrite string_app_nil_r. by destruct w.
  - cbn [forEach]. unfold mbind, M_bind, namePrinter_row.
    destruct (length (Cells row) <? 2)%nat eqn:Hlen.
    + apply Nat.ltb_lt in Hlen. unfold mret, M_ret. rewrite IH.
      rewrite filter_cons_False by lia. done.
    + apply Nat.ltb_ge in Hlen.
      assert (Hpos : (0 <? length (Cells row))%nat = true)
        by (apply Nat.ltb_lt; lia).
      rewrite Hpos, filter_cons_True by lia.
      rewrite fmap_cons. unfold unlines at 1. cbn [foldr].
      fold (unlines (nameOf b <$>
              filter (λ row, (2 ≤ length (Cells row))%nat) rows)).
      destruct b; simpl; unfold Fprint at 1; rewrite IH; simpl;
        by rewrite ?string_app_assoc.
Qed.

(** The name printer on any table: one line per row that has at least two
    cells, in the order of the rows; the line is the row's first cell, or
    its first two cells joined by a slash when the namespace is shown. Rows
    with fewer than two cells are passed over, and an object that is not a
    table is refused with nothing written. *)
Theorem name_printer_output (L : Library) (b : bool) (w : World) :
  (∀ table,
     PrintObj L (namePrinter b) (ObjTable table) w
     = (Ok tt,
        {| Out := Out w +:+ unlines (nameOf b <$>
                    filter (λ row, (2 ≤ length (Cells row))%nat) (Rows table));
           queries := queries w |})) ∧
  (∀ pods,
     PrintObj L (namePrinter b) (ObjPodList pods) w = (Err ErrExpectedTable, w)).
Proof.
  split.
  - intros table. apply namePrinter_lines.
  - done.
Qed.

Lemma PrintObj_appends (L : Library) (p : ResourcePrinter) (obj : RuntimeObject)
    (w : World) :
  ∃ text,
    snd (PrintObj L p obj w) = {| Out := Out w +:+ text; queries := queries w |}.
Proof.
  assert (Hfail : ∀ e, ∃ text,
            snd (@fail unit e w)
            = {| Out := Out w +:+ text; queries := queries w |}).
  { intros e. exists "". rewrite string_app_nil_r. by destruct w. }
  destruct p as [| |b|nh|]; simpl.
  - destruct (json_MarshalIndent L obj) as [data|e]; [|apply Hfail].
    exists (data +:+ newline). unfold FprintErr.
    by destruct (Writer_Write L (Out w) (data +:+ newline)).
  - destruct (yaml_Marshal L obj) as [data|e]; [|apply Hfail].
    exists data. unfold FprintErr.
    by destruct (Writer_Write L (Out w) data).
  - destruct obj as [table|pods]; [|apply Hfail].
    rewrite namePrinter_lines. eexists. reflexivity.
  - destruct (TablePrinter_PrintObj L nh obj) as [text|e]; [|apply Hfail].
    eexists. reflexivity.
  - destruct obj as [table|pods]; [apply Hfail|].
    rewrite (forEach_Fprint _ _ (λ item, ip item +:+ newline)) by done.
    eexists. reflexivity.
Qed.

(** ** The command and the cluster *)

Lemma Execute_invalid (L : Library) (C : Cluster) (a : Args) :
  arg_output a ∉ validFormats →
  Execute L C a = (Err ErrUnsupportedFormat, initialWorld).
Proof.
  intros Hbad. unfold Execute.
  destruct (NewCmdIPs a) as [o flags] eqn:Hcmd.
  pose proof (Complete_NewCmdIPs a) as Hc. rewrite Hcmd in Hc. simpl in Hc.
  unfold RunE. rewrite Hc.
  destruct (Validate (completed a)) as [[]|e] eqn:Hv.
  - destruct Hbad. by apply (Validate_valid (completed a)).
  - unfold Validate in Hv. by destruct (_ || _); simplify_eq.
Qed.

Lemma getPods_completed (C : Cluster) (a : Args) (w : World) :
  getPods C (completed a) w
  = match ToRESTConfig C with
    | Some e => (Err (ErrWrap "failed to get REST config" e), w)
    | None =>
        match NewForConfig C with
        | Some e => (Err (ErrWrap "failed to create kubernetes client" e), w)
        | None =>
            let w' := {| Out := Out w;
                         queries := queries w
                                    ++ [(targetNamespace a, arg_selector a)] |} in
            match Pods_List C (targetNamespace a) (arg_selector a) with
            | Ok pods => (Ok pods, w')
            | Err e => (Err (ErrWrap "failed to list pods" e), w')
            end
        end
    end.
Proof.
  unfold getPods.
  destruct (ToRESTConfig C); [done|]. destruct (NewForConfig C); [done|].
  unfold listPods, completed, targetNamespace. simpl.
  assert (Hsel : (if go_neq (arg_selector a) "" then arg_selector a else "")
                 = arg_selector a).
  { destruct (go_neq (arg_selector a) "") eqn:H; [done|].
    by apply go_neq_false in H. }
  rewrite Hsel.
  destruct (arg_all_namespaces a); simpl;
    by destruct (Pods_List C _ (arg_selector a)).
Qed.

Lemma Run_queries (L : Library) (C : Cluster) (a : Args) :
  ToRESTConfig C = None → NewForConfig C = None →
  queries (snd (Run L C (completed a) initialWorld))
  = [(targetNamespace a, arg_selector a)].
Proof.
  intros Hrest Hclient. unfold Run, mbind, M_bind.
  rewrite getPods_completed, Hrest, Hclient. cbv zeta.
  destruct (Pods_List C (targetNamespace a) (arg_selector a)) as [pods|e];
    [|done].
  set (w := {| Out := Out initialWorld;
               queries := queries initialWorld
                          ++ [(targetNamespace a, arg_selector a)] |}).
  assert (Hprint : ∀ p obj, queries (snd (PrintObj L p obj w)) = queries w).
  { intros p obj. destruct (PrintObj_appends L p obj w) as (text & ->).
    done. }
  assert (Hnone : queries (snd (printNoPodsFound L (completed a) w))
                  = queries w).
  { unfold printNoPodsFound. cbv zeta.
    destruct (go_neq _ _); [|done].
    by destruct (labels_Parse L _). }
  destruct (showIPsOnly (completed a)); [apply Hprint|].
  destruct (length (Items pods) =? 0)%nat; [exact Hnone|].
  destruct (length (Rows _) =? 0)%nat; [exact Hnone|].
  destruct (createPrinter _ _ _) as [printer|e]; [|done].
  specialize (Hprint printer
                (ObjTable (generateTable L pods (allNamespaces (completed a))
                             (String.eqb (outputFormat (completed a)) wideFormat)
                             (showLabels (completed a))))).
  by destruct (PrintObj L printer _ w) as [[[]|e] w'].
Qed.

(** The command asks the cluster at most once, for the pods of the settled
    namespace under the given selector, and it asks exactly when the output
    format is valid and the REST configuration and the client could be
    built. A run that asked nothing failed, and wrote nothing. *)
Theorem at_most_one_query (L : Library) (C : Cluster) (a : Args) :
  (queries (snd (Execute L C a)) = [] ∨
   queries (snd (Execute L C a)) = [(targetNamespace a, arg_selector a)]) ∧
  (queries (snd (Execute L C a)) = [] ↔
   arg_output a ∉ validFormats ∨ ToRESTConfig C ≠ None ∨ NewForConfig C ≠ None) ∧
  (queries (snd (Execute L C a)) = [] →
   Out (snd (Execute L C a)) = "" ∧ ∃ e, fst (Execute L C a) = Err e).
Proof.
  destruct (decide (arg_output a ∈ validFormats)) as [Hv|Hbad].
  - rewrite (Execute_valid L C a Hv).
    destruct (ToRESTConfig C) as [e|] eqn:Hrest.
    { assert (Hrun : Run L C (completed a) initialWorld
                     = (Err (ErrWrap "failed to get REST config" e), initialWorld)).
      { unfold Run, mbind, M_bind. by rewrite getPods_completed, Hrest. }
      fold initialWorld. rewrite Hrun. simpl.
      split_and!; [by left| |eauto]. split; [intros _|done]. by right; left. }
    destruct (NewForConfig C) as [e|] eqn:Hclient.
    { assert (Hrun : Run L C (completed a) initialWorld
                     = (Err (ErrWrap "failed to create kubernetes client" e),
                        initialWorld)).
      { unfold Run, mbind, M_bind. by rewrite getPods_completed, Hrest, Hclient. }
      fold initialWorld. rewrite Hrun. simpl.
      split_and!; [by left| |eauto]. split; [intros _|done]. by right; right. }
    fold initialWorld. rewrite (Run_queries L C a Hrest Hclient).
    split_and!; [by right| |done].
    split; [done|]. intros [?|[?|?]]; done.
  - rewrite (Execute_invalid L C a Hbad). simpl.
    split_and!; [by left| |eauto]. split; [intros _|done]. by left.
Qed.

(** Failures of the cluster, for a valid output format: a REST
    configuration or a client that cannot be built ends the run before any
    query, a refused list query ends it after the query; each error is
    returned under the name of the step that failed, and nothing is
    written. *)
Theorem cluster_failures_reported (L : Library) (C : Cluster) (a : Args) :
  arg_output a ∈ validFormats →
  (∀ e, ToRESTConfig C = Some e →
        Execute L C a
        = (Err (ErrWrap "failed to get REST config" e), initialWorld)) ∧
  (∀ e, ToRESTConfig C = None → NewForConfig C = Some e →
        Execute L C a
        = (Err (ErrWrap "failed to create kubernetes client" e), initialWorld)) ∧
  (∀ e, ToRESTConfig C = None → NewForConfig C = None →
        Pods_List C (targetNamespace a) (arg_selector a) = Err e →
        Execute L C a = (Err (ErrWrap "failed to list pods" e), afterQuery a "") ∧
        Error (ErrWrap "failed to list pods" e)
        = "failed to list pods: " +:+ Error e).
Proof.
  intros Hv. rewrite (Execute_valid L C a Hv).
  unfold Run, mbind, M_bind. rewrite getPods_completed.
  split_and!.
  - by intros e ->.
  - by intros e -> ->.
  - intros e -> -> ->. done.
Qed.

Lemma cluster_failures_reported_witness :
  Execute insertionLibrary (refusingCluster (ErrLibrary "connection refused"))
    {| arg_all_namespaces := true; arg_selector := "app=web";
       arg_show_ips_only := true; arg_output := "table";
       arg_no_headers := false; arg_show_labels := false;
       arg_namespace := "dev" |}
  = (Err (ErrWrap "failed to list pods" (ErrLibrary "connection refused")),
     {| Out := ""; queries := [("", "app=web")] |}).
Proof.
  destruct (cluster_failures_reported insertionLibrary
              (refusingCluster (ErrLibrary "connection refused"))
              {| arg_all_namespaces := true; arg_selector := "app=web";
                 arg_show_ips_only := true; arg_output := "table";
                 arg_no_headers := false; arg_show_labels := false;
                 arg_namespace := "dev" |}) as (_ & _ & Hlist).
  - vm_compute. left.
  - exact (proj1 (Hlist _ eq_refl eq_refl eq_refl)).
Defined.

Lemma Execute_prints_table (L : Library) (C : Cluster) (a : Args)
    (pods : PodList) :
  SortsSlice L →
  arg_show_ips_only a = false → arg_output a ∈ validFormats →
  answers C a pods →
  extractPodIPsWithPods pods ≠ [] →
  Execute L C a
  = match createPrinter (arg_output a) (arg_no_headers a)
            (arg_all_namespaces a) with
    | Err e => (Err e, afterQuery a "")
    | Ok printer =>
        match PrintObj L printer (ObjTable (tableFor L a pods))
                (afterQuery a "") with
        | (Err e, w') => (Err (ErrWrap "failed to print object" e), w')
        | r => r
        end
    end.
Proof.
  intros HL Hips Hv Ha Hne.
  assert (Hrows : (length (Rows (tableFor L a pods)) =? 0)%nat = false).
  { apply Nat.eqb_neq. unfold tableFor. rewrite generateTable_eq.
    cbn [Rows]. rewrite length_fmap, (sort_perm L HL).
    by destruct (extractPodIPsWithPods pods). }
  assert (Hitems : (length (Items pods) =? 0)%nat = false).
  { apply Nat.eqb_neq. destruct pods as [[|p items]]; [done|].
    simpl. lia. }
  rewrite (Run_answers L C a pods Hv Ha). cbv zeta.
  unfold completed at 1. cbn [showIPsOnly]. rewrite Hips, Hitems.
  unfold completed at 1 2 3. cbn [allNamespaces outputFormat showLabels].
  fold (tableFor L a pods). rewrite Hrows. reflexivity.
Qed.

(** JSON and YAML output: what is marshalled is the table of the sorted
    pairs, in its narrow form (no READY, RESTARTS, NODE columns), not the
    pod list; the JSON text is followed by a newline, the YAML text is
    handed to the stream as it is. When marshalling fails, nothing is
    written and the error comes back as "failed to print object: failed to
    marshal ..."; when the stream refuses the write, the error comes back
    as "failed to print object: failed to write ...". *)
Theorem structured_output (L : Library) (C : Cluster) (a : Args)
    (pods : PodList) :
  SortsSlice L →
  arg_show_ips_only a = false →
  answers C a pods →
  extractPodIPsWithPods pods ≠ [] →
  (arg_output a = jsonFormat →
   Execute L C a
   = match json_MarshalIndent L
             (ObjTable (generateTable L pods (arg_all_namespaces a) false
                          (arg_show_labels a))) with
     | Err e =>
         (Err (ErrWrap "failed to print object"
                 (ErrWrap "failed to marshal JSON" e)), afterQuery a "")
     | Ok data =>
         match Writer_Write L "" (data +:+ newline) with
         | None => (Ok tt, afterQuery a (data +:+ newline))
         | Some e =>
             (Err (ErrWrap "failed to print object"
                     (ErrWrap "failed to write JSON" e)),
              afterQuery a (data +:+ newline))
         end
     end) ∧
  (arg_output a = yamlFormat →
   Execute L C a
   = match yaml_Marshal L
             (ObjTable (generateTable L pods (arg_all_namespaces a) false
                          (arg_show_labels a))) with
     | Err e =>
         (Err (ErrWrap "failed to print object"
                 (ErrWrap "failed to marshal YAML" e)), afterQuery a "")
     | Ok data =>
         match Writer_Write L "" data with
         | None => (Ok tt, afterQuery a data)
         | Some e =>
             (Err (ErrWrap "failed to print object"
                     (ErrWrap "failed to write YAML" e)),
              afterQuery a data)
         end
     end).
Proof.
  intros HL Hips Ha Hne. split; intros Hfmt.
  - rewrite (Execute_prints_table L C a pods HL Hips) by
      (rewrite ?Hfmt; unfold validFormats; set_solver || done).
    unfold tableFor. rewrite Hfmt.
    cbn [createPrinter String.eqb Ascii.eqb Bool.eqb jsonFormat wideFormat].
    cbn [PrintObj].
    destruct (json_MarshalIndent L _) as [data|e]; [|reflexivity].
    unfold FprintErr, afterQuery. cbn [Out queries].
    by destruct (Writer_Write L "" (data +:+ newline)).
  - rewrite (Execute_prints_table L C a pods HL Hips) by
      (rewrite ?Hfmt; unfold validFormats; set_solver || done).
    unfold tableFor. rewrite Hfmt.
    cbn [createPrinter String.eqb Ascii.eqb Bool.eqb jsonFormat yamlFormat
           wideFormat].
    cbn [PrintObj].
    destruct (yaml_Marshal L _) as [data|e]; [|reflexivity].
    unfold FprintErr, afterQuery. cbn [Out queries].
    by destruct (Writer_Write L "" data).
Qed.

Lemma structured_output_witness :
  Execute insertionLibrary (constCluster {| Items := [podA] |})
    {| arg_all_namespaces := false; arg_selector := "";
       arg_show_ips_only := false; arg_output := "json";
       arg_no_headers := false; arg_show_labels := false;
       arg_namespace := "" |}
  = (Ok tt, {| Out := "{}" +:+ newline; queries := [("default", "")] |}) ∧
  Execute refusingLibrary (constCluster {| Items := [podA] |})
    {| arg_all_namespaces := false; arg_selector := "";
       arg_show_ips_only := false; arg_output := "yaml";
       arg_no_headers := false; arg_show_labels := false;
       arg_namespace := "" |}
  = (Err (ErrWrap "failed to print object"
            (ErrWrap "failed to write YAML" (ErrLibrary "broken pipe"))),
     {| Out := "{}"; queries := [("default", "")] |}).
Proof.
  split.
  - destruct (structured_output insertionLibrary
                (constCluster {| Items := [podA] |})
                {| arg_all_namespaces := false; arg_selector := "";
                   arg_show_ips_only := false; arg_output := "json";
                   arg_no_headers := false; arg_show_labels := false;
                   arg_namespace := "" |}
                {| Items := [podA] |}) as [Hjson _].
    + apply insertionLibrary_SortsSlice.
    + reflexivity.
    + vm_compute. repeat split.
    + vm_compute. discriminate.
    + exact (Hjson eq_refl).
  - destruct (structured_output refusingLibrary
                (constCluster {| Items := [podA] |})
                {| arg_all_namespaces := false; arg_selector := "";
                   arg_show_ips_only := false; arg_output := "yaml";
                   arg_no_headers := false; arg_show_labels := false;
                   arg_namespace := "" |}
                {| Items := [podA] |}) as [_ Hyaml].
    + apply insertionLibrary_SortsSlice.
    + reflexivity.
    + vm_compute. repeat split.
    + vm_compute. discriminate.
    + exact (Hyaml eq_refl).
Defined.

(** ** Pods that share no IP *)

Lemma seen_insert (u : gmap string bool) (k x : string) :
  seen (<[k := true]> u) x = if decide (x = k) then true else seen u x.
Proof.
  unfold seen. destruct (decide (x = k)) as [->|Hne].
  - by rewrite lookup_insert_eq.
  - by rewrite lookup_insert_ne.
Qed.

Lemma extractSecondary_local (p : Pod) (ips : list PodIPEntry)
    (pre mid : list podIPWithPod) (u u' : gmap string bool) :
  (∀ x, x ∈ IP <$> ips → x ≠ "" → seen u x = seen u' x) →
  fst (extractSecondary p ips (pre ++ mid, u))
  = pre ++ fst (extractSecondary p ips (mid, u')).
Proof.
  revert mid u u'. induction ips as [|e rest IH]; intros mid u u' Hagree;
    [done|].
  cbn [extractSecondary].
  assert (Hrest : ∀ x, x ∈ IP <$> rest → x ≠ "" → seen u x = seen u' x).
  { intros x Hx. apply Hagree. rewrite fmap_cons. apply elem_of_cons. by right. }
  destruct (go_neq (IP e) "") eqn:Hne; cbn [andb].
  - apply go_neq_true in Hne.
    rewrite <- (Hagree (IP e)) by (done || (rewrite fmap_cons; apply elem_of_cons; by left)).
    destruct (negb (seen u (IP e))).
    + rewrite <- (assoc_L (++)). apply IH.
      intros x Hx Hxne. rewrite !seen_insert.
      destruct (decide (x = IP e)); [done|]. by apply Hrest.
    + by apply IH.
  - by apply IH.
Qed.

Lemma extractPod_local (p : Pod) (acc : list podIPWithPod)
    (u : gmap string bool) :
  tracks acc u →
  (∀ x, x ∈ statusIPs p → x ≠ "" → x ∉ ip <$> acc) →
  fst (extractPod p (acc, u)) = acc ++ ownPairs p.
Proof.
  intros Ht Hfresh.
  assert (Hagree : ∀ x, x ∈ IP <$> PodIPs (Status p) → x ≠ "" →
                        seen u x = seen (∅ : gmap string bool) x).
  { intros x Hx Hne. unfold seen at 2. rewrite lookup_empty. simpl.
    destruct (seen u x) eqn:Hs; [|done].
    destruct (Hfresh x); [|done|by apply Ht].
    unfold statusIPs. apply elem_of_cons. by right. }
  unfold ownPairs, extractPodIPsWithPods. cbn [Items extractLoop].
  unfold extractPod.
  destruct (go_neq (PodIP (Status p)) "").
  - change ([] ++ [{| pod := p; ip := PodIP (Status p) |}])
      with [{| pod := p; ip := PodIP (Status p) |}].
    apply extractSecondary_local.
    intros x Hx Hne. rewrite !seen_insert.
    destruct (decide (x = PodIP (Status p))); [done|]. by apply Hagree.
  - rewrite <- (app_nil_r acc) at 1. by apply extractSecondary_local.
Qed.

Lemma extractLoop_local (items : list Pod) (acc : list podIPWithPod)
    (u : gmap string bool) :
  tracks acc u →
  shareNoIPs items →
  (∀ p x, p ∈ items → x ∈ statusIPs p → x ≠ "" → x ∉ ip <$> acc) →
  fst (extractLoop items (acc, u)) = acc ++ concat (ownPairs <$> items).
Proof.
  revert acc u. induction items as [|p rest IH]; intros acc u Ht Hs Hfresh;
    cbn [extractLoop].
  - simpl. by rewrite app_nil_r.
  - destruct (extractPod_spec p acc u Ht) as (b & u1 & Heq & Ht1 & Hb & _).
    assert (Hown : b = ownPairs p).
    { assert (Hp : ∀ x, x ∈ statusIPs p → x ≠ "" → x ∉ ip <$> acc).
      { intros x. apply Hfresh. apply elem_of_cons. by left. }
      pose proof (extractPod_local p acc u Ht Hp) as Hl.
      rewrite Heq in Hl. simpl in Hl. by apply app_inv_head in Hl. }
    rewrite Heq. apply shareNoIPs_cons in Hs as [Hs Hp].
    rewrite (IH _ _ Ht1 Hs).
    + rewrite fmap_cons. simpl. by rewrite Hown, (assoc_L (++)).
    + intros q x Hq Hx Hne Hin.
      rewrite fmap_app, elem_of_app in Hin. destruct Hin as [Hin|Hin].
      * apply (Hfresh q x); [apply elem_of_cons; by right|done..].
      * destruct Hb as (_ & Hsub & _).
        apply (Hp q x Hq Hne); [|done].
        exact (elem_of_sublist _ _ _ Hin Hsub).
Qed.

Lemma extract_local (pods : PodList) :
  shareNoIPs (Items pods) →
  extractPodIPsWithPods pods = concat (ownPairs <$> Items pods).
Proof.
  intros Hs. unfold extractPodIPsWithPods at 1.
  rewrite (extractLoop_local _ _ _ tracks_nil Hs); [done|].
  intros p x _ _ _ Hin. by apply elem_of_nil in Hin.
Qed.

Lemma ownPairs_complete (p : Pod) (x : string) :
  x ∈ statusIPs p → x ≠ "" → {| pod := p; ip := x |} ∈ ownPairs p.
Proof.
  intros Hx Hne.
  destruct (extractPod_spec p [] ∅ tracks_nil) as (b & u' & Heq & _ & Hb & Hall).
  assert (Hown : ownPairs p = b).
  { unfold ownPairs, extractPodIPsWithPods. cbn [Items extractLoop].
    by rewrite Heq. }
  rewrite Hown. specialize (Hall x Hx Hne). simpl in Hall.
  apply list_elem_of_fmap in Hall as (a & -> & Ha).
  destruct Hb as (Hb & _). destruct (Hb a Ha) as [<- _]. by destruct a.
Qed.

Lemma shareNoIPs_cons_iff (p : Pod) (rest : list Pod) :
  shareNoIPs (p :: rest) ↔
  shareNoIPs rest ∧
  (∀ q x, q ∈ rest → x ≠ "" → x ∈ statusIPs p → x ∉ statusIPs q).
Proof.
  split; [apply shareNoIPs_cons|].
  intros [Hs Hp] i j p' q x Hij Hi Hj Hne Hx Hq.
  destruct i as [|i], j as [|j]; simpl in Hi, Hj; [done| | |].
  - injection Hi as <-. apply list_elem_of_lookup_2 in Hj.
    by apply (Hp q x).
  - injection Hj as <-. apply list_elem_of_lookup_2 in Hi.
    by apply (Hp p' x).
  - apply (Hs i j p' q x); [lia|done..].
Qed.

Lemma shareNoIPs_Permutation (l1 l2 : list Pod) :
  l1 ≡ₚ l2 → shareNoIPs l1 → shareNoIPs l2.
Proof.
  induction 1 as [|p l1 l2 HP IH|p q l|l1 l2 l3 _ IH1 _ IH2]; [done| | |auto].
  - rewrite !shareNoIPs_cons_iff. intros [Hs Hp]. split; [by apply IH|].
    intros q x Hq. apply Hp. by rewrite HP.
  - rewrite !shareNoIPs_cons_iff. intros [[Hs Hp] Hq].
    split_and!; [done| |].
    + intros r x Hr. apply Hq. apply elem_of_cons. by right.
    + intros r x [->|Hr]%elem_of_cons Hne Hx Hx'.
      * apply (Hq p x); [apply elem_of_cons; by left|done..].
      * by apply (Hp r x).
Qed.

Lemma concat_Permutation {A} (l1 l2 : list (list A)) :
  l1 ≡ₚ l2 → concat l1 ≡ₚ concat l2.
Proof.
  induction 1 as [|x l1 l2 _ IH|x y l|l1 l2 l3 _ IH1 _ IH2]; simpl.
  - done.
  - by rewrite IH.
  - rewrite !(assoc_L (++)). f_equiv. apply Permutation_app_comm.
  - by etrans.
Qed.

(** When no IP stands on two pods of the list, every pod gets exactly the
    pairs it would get if it were listed alone: the output is the pods'
    own pairs one pod after the other, every non-empty IP of a pod is paired
    with that pod, and no IP is listed twice. *)
Theorem every_ip_listed_without_sharing (pods : PodList) :
  shareNoIPs (Items pods) →
  extractPodIPsWithPods pods = concat (ownPairs <$> Items pods) ∧
  (∀ p x, p ∈ Items pods → x ∈ statusIPs p → x ≠ "" →
          {| pod := p; ip := x |} ∈ extractPodIPsWithPods pods) ∧
  NoDup (ip <$> extractPodIPsWithPods pods).
Proof.
  intros Hs. split_and!.
  - by apply extract_local.
  - intros p x Hp Hx Hne. rewrite (extract_local pods Hs).
    apply list_elem_of_In, in_concat. exists (ownPairs p). split.
    + apply list_elem_of_In. by apply list_elem_of_fmap_2.
    + apply list_elem_of_In. by apply ownPairs_complete.
  - by apply extract_NoDup.
Qed.

Lemma every_ip_listed_without_sharing_witness :
  {| pod := podB; ip := "10.0.0.1" |}
    ∈ extractPodIPsWithPods {| Items := [podA; podB] |}.
Proof.
  destruct (every_ip_listed_without_sharing {| Items := [podA; podB] |})
    as (_ & Hall & _).
  - intros i j p q x Hij Hi Hj Hne Hp Hq.
    destruct i as [|[|i]], j as [|[|j]]; try done; simpl in Hi, Hj;
      injection Hi as <-; injection Hj as <-;
      unfold statusIPs in Hp, Hq; simpl in Hp, Hq;
      rewrite list_elem_of_singleton in Hp, Hq; congruence.
  - apply (Hall podB "10.0.0.1").
    + simpl. apply elem_of_cons. right. apply elem_of_cons. by left.
    + unfold statusIPs. simpl. apply elem_of_cons. by left.
    + discriminate.
Defined.

(** When no IP stands on two pods of the list, the order in which the
    cluster lists the pods does not matter: the same pods in another order
    give, under every [sort.Slice] that orders slices, the same sorted
    pairs, hence the same IP-only output and a table with the same columns
    and the same rows in the same order: row by row the same pod, and the
    same cell in every column but AGE and LABELS, whose text comes from
    the clock and from the iteration over the label map. *)
Theorem output_independent_of_list_order (L : Library) (pods1 pods2 : PodList) :
  SortsSlice L →
  shareNoIPs (Items pods1) →
  Items pods1 ≡ₚ Items pods2 →
  sortPodIPsWithPods L (extractPodIPsWithPods pods1)
  = sortPodIPsWithPods L (extractPodIPsWithPods pods2) ∧
  (∀ showNamespace wide showLabels,
     ColumnDefinitions (generateTable L pods1 showNamespace wide showLabels)
     = ColumnDefinitions (generateTable L pods2 showNamespace wide showLabels) ∧
     Object <$> Rows (generateTable L pods1 showNamespace wide showLabels)
     = Object <$> Rows (generateTable L pods2 showNamespace wide showLabels) ∧
     (∀ i row1 row2 j column,
        Rows (generateTable L pods1 showNamespace wide showLabels) !! i
        = Some row1 →
        Rows (generateTable L pods2 showNamespace wide showLabels) !! i
        = Some row2 →
        makeTableHeaders showNamespace wide showLabels !! j = Some column →
        col_Name column ≠ "AGE" → col_Name column ≠ "LABELS" →
        Cells row1 !! j = Cells row2 !! j)) ∧
  (∀ w, PrintObj L ipOnlyPrinter (ObjPodList pods1) w
        = PrintObj L ipOnlyPrinter (ObjPodList pods2) w).
Proof.
  intros HL Hs HP.
  assert (Hsorted : sortPodIPsWithPods L (extractPodIPsWithPods pods1)
                    = sortPodIPsWithPods L (extractPodIPsWithPods pods2)).
  { apply sorted_unique_distinct_keys;
      [|by apply sort_Sorted|by apply sort_Sorted|].
    - rewrite (sort_perm L HL).
      apply (NoDup_fmap_1 (λ k : string * string * string, k.2)).
      rewrite <- list_fmap_compose. by apply extract_NoDup.
    - rewrite !(sort_perm L HL).
      rewrite (extract_local pods1 Hs),
        (extract_local pods2 (shareNoIPs_Permutation _ _ HP Hs)).
      apply concat_Permutation. by apply fmap_Permutation. }
  split_and!; [done| |].
  - intros showNamespace wide showLabels.
    rewrite !generateTable_eq. cbn [ColumnDefinitions Rows].
    rewrite Hsorted. split_and!; [done..|].
    intros i row1 row2 j column Hrow1 Hrow2 _ _ _. congruence.
  - intros w. cbn [PrintObj]. cbv zeta. by rewrite Hsorted.
Qed.

Lemma output_independent_of_list_order_witness :
  sortPodIPsWithPods insertionLibrary
    (extractPodIPsWithPods {| Items := [podA; podB] |})
  = sortPodIPsWithPods insertionLibrary
      (extractPodIPsWithPods {| Items := [podB; podA] |}).
Proof.
  apply (output_independent_of_list_order insertionLibrary
           {| Items := [podA; podB] |} {| Items := [podB; podA] |}).
  - apply insertionLibrary_SortsSlice.
  - intros i j p q x Hij Hi Hj Hne Hp Hq.
    destruct i as [|[|i]], j as [|[|j]]; try done; simpl in Hi, Hj;
      injection Hi as <-; injection Hj as <-;
      unfold statusIPs in Hp, Hq; simpl in Hp, Hq;
      rewrite list_elem_of_singleton in Hp, Hq; congruence.
  - apply perm_swap.
Defined.

(** ** The Labels cell, for any number of labels *)

Lemma labels_loop (kvs : list (string * string)) (acc : list string) :
  foldl (λ labelStrings kv, labelStrings ++ [fst kv +:+ "=" +:+ snd kv]) acc kvs
  = acc ++ ((λ kv, fst kv +:+ "=" +:+ snd kv) <$> kvs).
Proof.
  revert acc. induction kvs as [|kv kvs IH]; intros acc; simpl.
  - by rewrite app_nil_r.
  - by rewrite IH, <- (assoc_L (++)).
Qed.

(** Whenever the iteration over the map yields the map's entries, the
    Labels cell of a pod with labels lists every label exactly once as
    "key=value", the entries joined by commas in the order of the
    iteration; without labels it is "<none>". *)
Theorem labels_cell_lists_every_label (L : Library) (m : gmap string string) :
  (∀ m, range_map L m ≡ₚ map_to_list m) →
  (m = ∅ → FormatLabels L m = "<none>") ∧
  (m ≠ ∅ →
   ∃ kvs, kvs ≡ₚ map_to_list m ∧
          FormatLabels L m
          = String.concat "," ((λ kv, fst kv +:+ "=" +:+ snd kv) <$> kvs)).
Proof.
  intros Hrange. split.
  - intros ->. reflexivity.
  - intros Hne. exists (range_map L m). split; [apply Hrange|].
    unfold FormatLabels.
    assert (Hsize : (size m =? 0)%nat = false).
    { apply Nat.eqb_neq. by rewrite map_size_empty_iff. }
    by rewrite Hsize, labels_loop.
Qed.

Lemma labels_cell_lists_every_label_witness :
  ∃ kvs, kvs ≡ₚ map_to_list ({[ "app" := "nginx" ]} : gmap string string) ∧
         FormatLabels insertionLibrary {[ "app" := "nginx" ]}
         = String.concat "," ((λ kv, fst kv +:+ "=" +:+ snd kv) <$> kvs).
Proof.
  apply (labels_cell_lists_every_label insertionLibrary {[ "app" := "nginx" ]}).
  - intros m. reflexivity.
  - apply insert_non_empty.
Defined.
